(** * The tic-tac-toe engine of [weather_app/tic_tac_toe.py]

    A shallow embedding of the class [TicTacToe] (the nine-cell board, move
    application, winner detection, the exhaustive minimax search) and of the
    [/api/make_move] route that drives it, followed by the properties the
    specification states about them.

    Modelling choices.
    - A cell is a Python string: [""] is the empty cell, ["X"] the human,
      ["O"] the automated player.  [make_move] accepts any string.
    - [self.board] is a Python list.  It is created with nine cells by
      [__init__] and [reset] and only ever changed by item assignment, so it
      always has nine cells; the theorems assume [wf].  A read at an index the
      list does not have would raise [IndexError] in Python; no read of the
      class can do so on a nine-cell board.
    - The search mutates the board in place and retracts every mark.  The
      embedding threads the object through every call, so that the final
      state of the board is an output of the search.
    - [minimax] recurses on the mutated object.  The embedding takes a
      [fuel] argument bounding the recursion depth and returns [None] when it
      is exhausted; [minimax_total] shows that more fuel than empty cells
      always gives a result.
    - [float('-inf')] and [float('inf')] seed the running best score, the
      other scores are Python integers: [score]. *)

From Stdlib Require Import ZArith Lia Sorted.
From stdpp Require Import base list strings.

Local Open Scope string_scope.
Local Open Scope list_scope.

(** ** Data *)

Record TicTacToe := mkTicTacToe {
  board : list string;
  current_player : string
}.

(** [__init__]. *)
Definition init : TicTacToe :=
  {| board := replicate 9 ""; current_player := "X" |}.


(** The invariant of [self.board]. *)
Definition wf (g : TicTacToe) : Prop := length (board g) = 9.

(** [self.board[i]], for an index the board has. *)
Definition cell (g : TicTacToe) (i : nat) : string :=
  default "" (board g !! i).

(** [self.board[i] = v]. *)
Definition set_cell (g : TicTacToe) (i : nat) (v : string) : TicTacToe :=
  {| board := <[i := v]> (board g); current_player := current_player g |}.

(** ** Moves *)

Definition make_move (g : TicTacToe) (position : Z) (player : string)
  : bool * TicTacToe :=
  if (0 <=? position)%Z && (position <? 9)%Z
     && String.eqb (cell g (Z.to_nat position)) ""
  then (true, set_cell g (Z.to_nat position) player)
  else (false, g).

Definition get_available_moves (g : TicTacToe) : list nat :=
  List.filter (fun i => String.eqb (cell g i) "") (seq 0 9).

Definition winning_combinations : list (nat * nat * nat) :=
  [ (0, 1, 2); (3, 4, 5); (6, 7, 8);
    (0, 3, 6); (1, 4, 7); (2, 5, 8);
    (0, 4, 8); (2, 4, 6) ].

(** The test of line 28: [b[c0] == b[c1] == b[c2] != '']. *)
Definition combo_wins (g : TicTacToe) (combo : nat * nat * nat) : bool :=
  let '(c0, c1, c2) := combo in
  String.eqb (cell g c0) (cell g c1)
  && String.eqb (cell g c1) (cell g c2)
  && negb (String.eqb (cell g c2) "").

Fixpoint scan_combos (g : TicTacToe) (combos : list (nat * nat * nat))
  : option string :=
  match combos with
  | [] => None
  | combo :: rest =>
      if combo_wins g combo then Some (cell g (fst (fst combo)))
      else scan_combos g rest
  end.

Definition check_winner (g : TicTacToe) : option string :=
  scan_combos g winning_combinations.

(** ['' not in self.board]. *)
Definition is_board_full (g : TicTacToe) : bool :=
  negb (existsb (fun s => String.eqb "" s) (board g)).

(** ** Scores *)

Inductive score := NegInf | Int (z : Z) | PosInf.

(** [a > b]. *)
Definition score_gt (a b : score) : bool :=
  match a, b with
  | NegInf, _ => false
  | _, PosInf => false
  | Int x, Int y => (y <? x)%Z
  | _, _ => true
  end.

(** [a < b]. *)
Definition score_lt (a b : score) : bool := score_gt b a.

(** Python's [max(a, b)]: the first argument unless the second is greater. *)
Definition py_max (a b : score) : score := if score_gt b a then b else a.

(** Python's [min(a, b)]: the first argument unless the second is smaller. *)
Definition py_min (a b : score) : score := if score_lt b a then b else a.

(** ** The search *)

(** The two [for move in self.get_available_moves()] loops of [minimax]:
    place [mark], recurse through [call], retract, fold the score with
    [pick].  The list of moves is computed once, before the loop. *)
Fixpoint minimax_loop (call : TicTacToe -> option (score * TicTacToe))
    (mark : string) (pick : score -> score -> score)
    (moves : list nat) (best_score : score) (g : TicTacToe)
  : option (score * TicTacToe) :=
  match moves with
  | [] => Some (best_score, g)
  | move :: rest =>
      match call (set_cell g move mark) with
      | None => None
      | Some (sc, g1) =>
          minimax_loop call mark pick rest (pick sc best_score)
            (set_cell g1 move "")
      end
  end.

(** The three early returns of [minimax] (lines 56 to 63). *)
Definition leaf_score (depth : Z) (g : TicTacToe) : option score :=
  let winner := check_winner g in
  if bool_decide (winner = Some "O") then Some (Int (10 - depth))
  else if bool_decide (winner = Some "X") then Some (Int (depth - 10))
  else if is_board_full g then Some (Int 0)
  else None.

Fixpoint minimax (fuel : nat) (depth : Z) (is_maximizing : bool)
    (g : TicTacToe) : option (score * TicTacToe) :=
  match fuel with
  | O => None
  | S fuel' =>
      match leaf_score depth g with
      | Some sc => Some (sc, g)
      | None =>
          if is_maximizing then
            minimax_loop (minimax fuel' (depth + 1) false) "O" py_max
              (get_available_moves g) NegInf g
          else
            minimax_loop (minimax fuel' (depth + 1) true) "X" py_min
              (get_available_moves g) PosInf g
      end
  end.

(** What [get_best_move] returns: [None], the chosen index, or a draw of
    [random.choice] among the available moves. *)
Inductive best_move := NoMove | Move (i : nat) | RandomChoice (available : list nat).

(** The loop of [get_best_move] (lines 44 to 51). *)
Fixpoint best_move_loop (call : TicTacToe -> option (score * TicTacToe))
    (moves : list nat) (best_score : score) (best : option nat)
    (g : TicTacToe) : option (score * option nat * TicTacToe) :=
  match moves with
  | [] => Some (best_score, best, g)
  | move :: rest =>
      match call (set_cell g move "O") with
      | None => None
      | Some (sc, g1) =>
          let g2 := set_cell g1 move "" in
          if score_gt sc best_score
          then best_move_loop call rest sc (Some move) g2
          else best_move_loop call rest best_score best g2
      end
  end.

Definition get_best_move (fuel : nat) (g : TicTacToe)
  : option (best_move * TicTacToe) :=
  let available := get_available_moves g in
  match available with
  | [] => Some (NoMove, g)
  | _ :: _ =>
      match best_move_loop (minimax fuel 0 false) available NegInf None g with
      | None => None
      | Some (_, Some move, g') => Some (Move move, g')
      | Some (_, None, g') => Some (RandomChoice available, g')
      end
  end.

(** ** The derived outcome *)

Inductive outcome := InProgress | Win (mark : string) | Draw.

(** The outcome of a board as the route (lines 100 to 115 and 122 to 137)
    and [minimax] (lines 56 to 63) derive it: [check_winner] first,
    [is_board_full] second. *)
Definition evaluate_outcome (g : TicTacToe) : outcome :=
  match check_winner g with
  | Some mark => Win mark
  | None => if is_board_full g then Draw else InProgress
  end.

(** The specification's words for a won line: all three cells hold [mark]
    and none is empty. *)
Definition line_won_by (g : TicTacToe) (combo : nat * nat * nat)
    (mark : string) : Prop :=
  cell g (fst (fst combo)) = mark /\ cell g (snd (fst combo)) = mark
  /\ cell g (snd combo) = mark /\ mark <> "".

Definition rows : list (nat * nat * nat) := [(0, 1, 2); (3, 4, 5); (6, 7, 8)].
Definition columns : list (nat * nat * nat) := [(0, 3, 6); (1, 4, 7); (2, 5, 8)].
Definition diagonals : list (nat * nat * nat) := [(0, 4, 8); (2, 4, 6)].

(** ** The route [/api/make_move] of the same file (lines 92 to 144) *)

(** The [status] strings of the responses. *)
Inductive status :=
  | InvalidMove    (* 'Invalid move', success False *)
  | PlayerXWins    (* 'Player X wins!' *)
  | ItsADraw       (* 'It's a draw!' *)
  | AIWins         (* 'AI (O) wins!' *)
  | YourTurn.      (* 'Your turn' *)

(** The [game_over] field of the response. *)
Definition game_over (st : status) : bool :=
  match st with
  | PlayerXWins | ItsADraw | AIWins => true
  | InvalidMove | YourTurn => false
  end.

(** [if winner:] on the result of [check_winner]. *)
Definition truthy (winner : option string) : bool :=
  match winner with
  | None => false
  | Some w => negb (String.eqb w "")
  end.

(** The fuel the route gives the search: one more than the cells of a board. *)
Definition search_fuel : nat := 10.

Section Route.

(** [random.choice], whatever it draws. *)
Variable random_choice : list nat -> nat.

Definition api_make_move (g : TicTacToe) (position : Z)
  : option (status * TicTacToe) :=
  let '(ok, g1) := make_move g position "X" in
  if negb ok then Some (InvalidMove, g1)
  else if truthy (check_winner g1) then Some (PlayerXWins, g1)
  else if is_board_full g1 then Some (ItsADraw, g1)
  else
    match get_best_move search_fuel g1 with
    | None => None
    | Some (ai_move, g2) =>
        let g3 :=
          match ai_move with
          | NoMove => g2
          | Move m => snd (make_move g2 (Z.of_nat m) "O")
          | RandomChoice available =>
              snd (make_move g2 (Z.of_nat (random_choice available)) "O")
          end in
        if truthy (check_winner g3) then Some (AIWins, g3)
        else if is_board_full g3 then Some (ItsADraw, g3)
        else Some (YourTurn, g3)
    end.

(** A game: the requests of the human, in order, up to the first response
    with [game_over]. *)
Fixpoint play (last : status) (g : TicTacToe) (positions : list Z)
  : option (status * TicTacToe) :=
  match positions with
  | [] => Some (last, g)
  | position :: rest =>
      match api_make_move g position with
      | None => None
      | Some (st, g') =>
          if game_over st then Some (st, g') else play st g' rest
      end
  end.

(** Requests with integer positions served one after the other on the one
    [game] object of the module, whatever the responses were: the route
    keeps no record of a game that is over.  Each status is paired with
    the board the request leaves. *)
Fixpoint serve (g : TicTacToe) (positions : list Z)
  : option (list (status * TicTacToe)) :=
  match positions with
  | [] => Some []
  | position :: rest =>
      match api_make_move g position with
      | None => None
      | Some (st, g') =>
          match serve g' rest with
          | None => None
          | Some responses => Some ((st, g') :: responses)
          end
      end
  end.

(** A game in which the human side, too, asks [get_best_move] for its move
    and plays the index it returns. *)
Fixpoint self_play (rounds : nat) (g : TicTacToe)
  : option (status * TicTacToe) :=
  match rounds with
  | O => None
  | S rounds' =>
      match get_best_move search_fuel g with
      | Some (Move m, g1) =>
          match api_make_move g1 (Z.of_nat m) with
          | None => None
          | Some (st, g2) =>
              if game_over st then Some (st, g2) else self_play rounds' g2
          end
      | _ => None
      end
  end.

(** A response that does not lose the game: it does not say that X has
    won, its board has no line of X, and when it ends the game it agrees
    with the outcome of its board; [continue] checks the rest of a game
    that goes on. *)
Definition safe_response (continue : TicTacToe -> bool)
    (response : option (status * TicTacToe)) : bool :=
  match response with
  | None => false
  | Some (st, g') =>
      negb (bool_decide (check_winner g' = Some "X"))
      && match st with
         | PlayerXWins => false
         | YourTurn => continue g'
         | InvalidMove => true
         | ItsADraw =>
             match evaluate_outcome g' with
             | Draw => true
             | _ => false
             end
         | AIWins =>
             match evaluate_outcome g' with
             | Win mark => String.eqb mark "O"
             | _ => false
             end
         end
  end.

(** A check of every request the human can make, [rounds] requests deep:
    every response is safe and the game is over within [rounds] accepted
    requests. *)
Fixpoint ai_safe (rounds : nat) (g : TicTacToe) : bool :=
  match rounds with
  | O => false
  | S rounds' =>
      forallb
        (fun p => safe_response (ai_safe rounds') (api_make_move g (Z.of_nat p)))
        (seq 0 9)
  end.

End Route.

(** ** Measures and reachability used by the statements *)

(** The number of empty cells, as [get_available_moves] reports them. *)
Definition count_empty (g : TicTacToe) : nat := length (get_available_moves g).

(** The number of marks placed between [root] and [g]. *)
Definition plies (root g : TicTacToe) : nat := count_empty root - count_empty g.

(** One call [self.minimax(depth, is_maximizing)]: its two arguments, the
    board it finds, and the score it returns. *)
Record minimax_call := Call {
  call_depth : Z;
  call_is_maximizing : bool;
  call_board : TicTacToe;
  call_score : score
}.

(** [minimax_loop], [minimax], [best_move_loop] and [get_best_move] once
    more, line for line, each returning besides its result the calls of
    [minimax] made while it ran, in the order they were entered. *)
Fixpoint minimax_loop_calls
    (call : TicTacToe -> option (score * TicTacToe * list minimax_call))
    (mark : string) (pick : score -> score -> score)
    (moves : list nat) (best_score : score) (g : TicTacToe)
    (calls : list minimax_call)
  : option (score * TicTacToe * list minimax_call) :=
  match moves with
  | [] => Some (best_score, g, calls)
  | move :: rest =>
      match call (set_cell g move mark) with
      | None => None
      | Some (sc, g1, made) =>
          minimax_loop_calls call mark pick rest (pick sc best_score)
            (set_cell g1 move "") (calls ++ made)
      end
  end.

Fixpoint minimax_calls (fuel : nat) (depth : Z) (is_maximizing : bool)
    (g : TicTacToe) : option (score * TicTacToe * list minimax_call) :=
  match fuel with
  | O => None
  | S fuel' =>
      match leaf_score depth g with
      | Some sc => Some (sc, g, [Call depth is_maximizing g sc])
      | None =>
          match
            (if is_maximizing then
               minimax_loop_calls (minimax_calls fuel' (depth + 1) false)
                 "O" py_max (get_available_moves g) NegInf g []
             else
               minimax_loop_calls (minimax_calls fuel' (depth + 1) true)
                 "X" py_min (get_available_moves g) PosInf g [])
          with
          | None => None
          | Some (sc, g', made) =>
              Some (sc, g', Call depth is_maximizing g sc :: made)
          end
      end
  end.

Fixpoint best_move_loop_calls
    (call : TicTacToe -> option (score * TicTacToe * list minimax_call))
    (moves : list nat) (best_score : score) (best : option nat)
    (g : TicTacToe) (calls : list minimax_call)
  : option (score * option nat * TicTacToe * list minimax_call) :=
  match moves with
  | [] => Some (best_score, best, g, calls)
  | move :: rest =>
      match call (set_cell g move "O") with
      | None => None
      | Some (sc, g1, made) =>
          let g2 := set_cell g1 move "" in
          if score_gt sc best_score
          then best_move_loop_calls call rest sc (Some move) g2 (calls ++ made)
          else best_move_loop_calls call rest best_score best g2 (calls ++ made)
      end
  end.

Definition get_best_move_calls (fuel : nat) (g : TicTacToe)
  : option (best_move * TicTacToe * list minimax_call) :=
  let available := get_available_moves g in
  match available with
  | [] => Some (NoMove, g, [])
  | _ :: _ =>
      match best_move_loop_calls (minimax_calls fuel 0 false) available
              NegInf None g [] with
      | None => None
      | Some (_, Some move, g', calls) => Some (Move move, g', calls)
      | Some (_, None, g', calls) => Some (RandomChoice available, g', calls)
      end
  end.

(** A result without the calls that were recorded beside it. *)
Definition forget_calls {A : Type} (r : option (A * list minimax_call))
  : option A :=
  option_map fst r.

(** The calls below a call are among [calls]: a call that does not return
    early calls [minimax] once for every available move (lines 67 to 69
    and 75 to 77). *)
Definition calls_closed (calls : list minimax_call) : Prop :=
  forall c, In c calls ->
    leaf_score (call_depth c) (call_board c) = None ->
    forall move, In move (get_available_moves (call_board c)) ->
      exists sc,
        In (Call (call_depth c + 1) (negb (call_is_maximizing c))
              (set_cell (call_board c) move
                 (if call_is_maximizing c then "O" else "X")) sc)
           calls.

(** What every call recorded below a call of depth [lo] on a board with
    [level - lo] empty cells satisfies: each mark placed since is matched
    by one more unit of depth, and the score recorded is the score
    [minimax] returns on these arguments. *)
Definition call_ok (lo level : Z) (c : minimax_call) : Prop :=
  wf (call_board c)
  /\ (lo <= call_depth c)%Z
  /\ (Z.of_nat (count_empty (call_board c)) + call_depth c = level)%Z
  /\ forall fuel, count_empty (call_board c) < fuel ->
       minimax fuel (call_depth c) (call_is_maximizing c) (call_board c)
       = Some (call_score c, call_board c).

(** The score of [minimax] as a function of the board alone: the same
    recursion on board values, without the threading of the object. *)
Fixpoint minimax_value (fuel : nat) (depth : Z) (is_maximizing : bool)
    (g : TicTacToe) : score :=
  match fuel with
  | O => if is_maximizing then NegInf else PosInf
  | S fuel' =>
      match leaf_score depth g with
      | Some sc => sc
      | None =>
          if is_maximizing then
            fold_left
              (fun best move =>
                 py_max (minimax_value fuel' (depth + 1) false
                           (set_cell g move "O")) best)
              (get_available_moves g) NegInf
          else
            fold_left
              (fun best move =>
                 py_min (minimax_value fuel' (depth + 1) true
                           (set_cell g move "X")) best)
              (get_available_moves g) PosInf
      end
  end.

(** The running pair [(best_score, best_move)] of [get_best_move], on scores
    given by [val]. *)
Definition best_step (val : nat -> score) (acc : score * option nat)
    (move : nat) : score * option nat :=
  if score_gt (val move) (fst acc) then (val move, Some move) else acc.

(** Boards used as concrete inputs. *)
Definition mk (cells : list string) : TicTacToe :=
  {| board := cells; current_player := "X" |}.

(** X X X / . . . / . . . *)
Definition board_x_row : TicTacToe := mk ["X"; "X"; "X"; ""; ""; ""; ""; ""; ""].

(** O O . / X X . / . . . *)
Definition board_o_to_win : TicTacToe := mk ["O"; "O"; ""; "X"; "X"; ""; ""; ""; ""].

(** X . . / . . . / . . . *)
Definition board_x_corner : TicTacToe := mk ["X"; ""; ""; ""; ""; ""; ""; ""; ""].

(** What a game against the search may end on: not on a win of X. *)
Definition never_lost (st : status) (g : TicTacToe) : Prop :=
  st <> PlayerXWins
  /\ check_winner g <> Some "X"
  /\ (st = ItsADraw -> evaluate_outcome g = Draw)
  /\ (st = AIWins -> evaluate_outcome g = Win "O").

(** ** Notions used by the further properties *)

(** The three values a cell takes in a game: the test suite asserts
    [cell in ['', 'X', 'O']] on every cell of a response. *)
Definition is_mark (s : string) : Prop := s = "" \/ s = "X" \/ s = "O".

(** Nine cells, each empty, X or O. *)
Definition valid_board (g : TicTacToe) : Prop :=
  wf g /\ Forall is_mark (board g).

(** The number of cells holding [mark]. *)
Definition count_mark (mark : string) (g : TicTacToe) : nat :=
  length (List.filter (String.eqb mark) (board g)).

(** X O X / X O . / . . . *)
Definition board_mid : TicTacToe := mk ["X"; "O"; "X"; "X"; "O"; ""; ""; ""; ""].

(** X O X / . O . / . X . *)
Definition board_open : TicTacToe := mk ["X"; "O"; "X"; ""; "O"; ""; ""; "X"; ""].

(** O O O / X X . / . . . *)
Definition board_o_row : TicTacToe := mk ["O"; "O"; "O"; "X"; "X"; ""; ""; ""; ""].

(** X O X / X O O / O X X *)
Definition board_full : TicTacToe := mk ["X"; "O"; "X"; "X"; "O"; "O"; "O"; "X"; "X"].

(** X O X / O . . / . . . *)
Definition board_even : TicTacToe := mk ["X"; "O"; "X"; "O"; ""; ""; ""; ""; ""].

(** X X . / . O . / . . . *)
Definition board_threat : TicTacToe := mk ["X"; "X"; ""; ""; "O"; ""; ""; ""; ""].

(** ** Cells *)

Lemma wf_init : wf init.
Proof. reflexivity. Qed.

Lemma wf_set_cell g i v : wf g -> wf (set_cell g i v).
Proof. unfold wf, set_cell; simpl. by rewrite length_insert. Qed.

Lemma cell_set_cell_eq g i v :
  i < length (board g) -> cell (set_cell g i v) i = v.
Proof.
  intros Hi. unfold cell, set_cell; simpl.
  by rewrite list_lookup_insert_eq.
Qed.

Lemma cell_set_cell_ne g i j v : i <> j -> cell (set_cell g i v) j = cell g j.
Proof.
  intros Hij. unfold cell, set_cell; simpl.
  by rewrite list_lookup_insert_ne.
Qed.

Lemma cell_lookup g i :
  i < length (board g) -> board g !! i = Some (cell g i).
Proof.
  intros Hi. unfold cell.
  destruct (lookup_lt_is_Some_2 (board g) i Hi) as [s ->]. reflexivity.
Qed.

(** Retracting a mark placed on an empty cell gives the board back. *)
Lemma set_cell_retract g i v :
  cell g i = "" -> set_cell (set_cell g i v) i "" = g.
Proof.
  intros He. destruct g as [b p]. unfold set_cell, cell in *; simpl in *.
  f_equal. rewrite list_insert_insert_eq.
  destruct (b !! i) as [s|] eqn:Hl.
  - simpl in He. subst s. by apply list_insert_id.
  - apply list_insert_ge. by apply lookup_ge_None_1.
Qed.

(** ** Available moves *)

Lemma In_available g i :
  In i (get_available_moves g) <-> i < 9 /\ cell g i = "".
Proof.
  unfold get_available_moves. rewrite filter_In, in_seq, String.eqb_eq.
  intuition lia.
Qed.

Lemma filter_length_lt {A} (P Q : A -> bool) (l : list A) (a : A) :
  (forall x, Q x = true -> P x = true) ->
  In a l -> P a = true -> Q a = false ->
  length (List.filter Q l) < length (List.filter P l).
Proof.
  intros HQP. induction l as [|x l IH]; simpl; [tauto|].
  assert (Hle : forall l', length (List.filter Q l') <= length (List.filter P l')).
  { induction l' as [|y l' IH']; simpl; [lia|].
    destruct (Q y) eqn:Hq.
    - rewrite (HQP y Hq). simpl. lia.
    - destruct (P y); simpl; lia. }
  intros [->|Hin] Hp Hq.
  - rewrite Hp, Hq. simpl. specialize (Hle l). lia.
  - specialize (IH Hin Hp Hq). destruct (Q x) eqn:Hqx.
    + rewrite (HQP x Hqx). simpl. lia.
    + destruct (P x); simpl; lia.
Qed.

(** Placing a mark on an available cell leaves strictly fewer empty cells. *)
Lemma count_empty_set_cell g move mark :
  wf g -> In move (get_available_moves g) -> mark <> "" ->
  count_empty (set_cell g move mark) < count_empty g.
Proof.
  intros Hwf Hin Hmark. unfold count_empty, get_available_moves.
  pose proof Hin as Hin'. apply In_available in Hin' as [Hlt He].
  apply filter_length_lt with (a := move).
  - intros x Hx. destruct (decide (move = x)) as [<-|Hne].
    + rewrite cell_set_cell_eq in Hx by (rewrite Hwf; lia).
      apply String.eqb_eq in Hx. congruence.
    + by rewrite cell_set_cell_ne in Hx.
  - apply in_seq. lia.
  - by apply String.eqb_eq.
  - rewrite cell_set_cell_eq by (rewrite Hwf; lia). by apply String.eqb_neq.
Qed.

Lemma is_board_full_false g :
  wf g -> is_board_full g = false -> exists i, In i (get_available_moves g).
Proof.
  intros Hwf Hf. unfold is_board_full in Hf.
  apply negb_false_iff, existsb_exists in Hf as (s & Hin & Hs).
  apply String.eqb_eq in Hs. subst s.
  apply list_elem_of_In, list_elem_of_lookup_1 in Hin as [i Hi].
  exists i. apply In_available. split.
  - apply lookup_lt_Some in Hi. rewrite Hwf in Hi. lia.
  - unfold cell. by rewrite Hi.
Qed.

Lemma is_board_full_true g :
  wf g -> is_board_full g = true -> get_available_moves g = [].
Proof.
  intros Hwf Hf. destruct (get_available_moves g) as [|i l] eqn:Ha; [done|].
  assert (Hin : In i (get_available_moves g)) by (rewrite Ha; left; done).
  apply In_available in Hin as [Hlt He].
  unfold is_board_full in Hf. apply negb_true_iff in Hf.
  assert (Hex : existsb (fun s => String.eqb "" s) (board g) = true).
  { apply existsb_exists. exists "". split; [|done].
    apply list_elem_of_In. apply list_elem_of_lookup_2 with i.
    rewrite cell_lookup by (rewrite Hwf; lia). by rewrite He. }
  congruence.
Qed.

(** ** The order of scores *)

Lemma score_gt_irrefl a : score_gt a a = false.
Proof. destruct a; simpl; try reflexivity. apply Z.ltb_irrefl. Qed.

Lemma score_gt_trans a b c :
  score_gt a b = true -> score_gt b c = true -> score_gt a c = true.
Proof.
  destruct a, b, c; simpl; try congruence.
  rewrite !Z.ltb_lt. lia.
Qed.

Lemma score_gt_le_trans a b c :
  score_gt a b = true -> score_gt c b = false -> score_gt a c = true.
Proof.
  destruct a, b, c; simpl; try congruence.
  rewrite !Z.ltb_lt, Z.ltb_ge. lia.
Qed.

Lemma score_le_trans a b c :
  score_gt a b = false -> score_gt b c = false -> score_gt a c = false.
Proof.
  destruct a, b, c; simpl; try congruence.
  rewrite !Z.ltb_ge. lia.
Qed.

Lemma py_max_int x best :
  best <> PosInf -> exists z, py_max (Int x) best = Int z.
Proof. destruct best; unfold py_max; simpl; [eauto| |done]. destruct (_ <? _)%Z; eauto. Qed.

Lemma py_min_int x best :
  best <> NegInf -> exists z, py_min (Int x) best = Int z.
Proof.
  destruct best; unfold py_min, score_lt; simpl; [done| |eauto].
  destruct (_ <? _)%Z; eauto.
Qed.

Lemma fold_py_max_int (val : nat -> score) moves best :
  (forall m, In m moves -> exists z, val m = Int z) ->
  best <> PosInf -> (moves <> [] \/ exists z, best = Int z) ->
  exists z, fold_left (fun b m => py_max (val m) b) moves best = Int z.
Proof.
  revert best. induction moves as [|a moves IH]; intros best Hval Hb Hne; simpl.
  - destruct Hne as [?|?]; [done|assumption].
  - destruct (Hval a) as [x Hx]; [by left|]. rewrite Hx.
    destruct (py_max_int x best Hb) as [z Hz]. rewrite Hz.
    apply IH; [intros m Hm; apply Hval; by right|done|eauto].
Qed.

Lemma fold_py_min_int (val : nat -> score) moves best :
  (forall m, In m moves -> exists z, val m = Int z) ->
  best <> NegInf -> (moves <> [] \/ exists z, best = Int z) ->
  exists z, fold_left (fun b m => py_min (val m) b) moves best = Int z.
Proof.
  revert best. induction moves as [|a moves IH]; intros best Hval Hb Hne; simpl.
  - destruct Hne as [?|?]; [done|assumption].
  - destruct (Hval a) as [x Hx]; [by left|]. rewrite Hx.
    destruct (py_min_int x best Hb) as [z Hz]. rewrite Hz.
    apply IH; [intros m Hm; apply Hval; by right|done|eauto].
Qed.

(** ** The loops leave the board as they found it *)

Lemma minimax_loop_pure call mark pick (val : nat -> score) moves best g :
  (forall m, In m moves -> cell g m = "") ->
  (forall m, In m moves ->
     call (set_cell g m mark) = Some (val m, set_cell g m mark)) ->
  minimax_loop call mark pick moves best g
  = Some (fold_left (fun b m => pick (val m) b) moves best, g).
Proof.
  revert best. induction moves as [|a moves IH]; intros best He Hc; simpl.
  - reflexivity.
  - rewrite Hc by (by left). rewrite set_cell_retract by (apply He; by left).
    apply IH; intros m Hm; [apply He|apply Hc]; by right.
Qed.

Lemma best_move_loop_pure call (val : nat -> score) moves best_score best g :
  (forall m, In m moves -> cell g m = "") ->
  (forall m, In m moves ->
     call (set_cell g m "O") = Some (val m, set_cell g m "O")) ->
  best_move_loop call moves best_score best g
  = Some (fold_left (best_step val) moves (best_score, best), g).
Proof.
  revert best_score best.
  induction moves as [|a moves IH]; intros bs bm He Hc; simpl.
  - reflexivity.
  - rewrite Hc by (by left). rewrite set_cell_retract by (apply He; by left).
    unfold best_step at 2. simpl.
    destruct (score_gt (val a) bs);
      apply IH; intros m Hm; try apply He; try apply Hc; by right.
Qed.

(** ** The in-place search computes [minimax_value] and restores the board *)

Lemma leaf_score_int depth g sc :
  leaf_score depth g = Some sc -> exists z, sc = Int z.
Proof.
  unfold leaf_score. repeat case_bool_decide; [naive_solver..|].
  destruct (is_board_full g); naive_solver.
Qed.

Lemma leaf_score_None depth g :
  leaf_score depth g = None -> is_board_full g = false.
Proof.
  unfold leaf_score. repeat case_bool_decide; try done.
  by destruct (is_board_full g).
Qed.

Lemma minimax_eq_value fuel : forall depth is_maximizing g,
  wf g -> count_empty g < fuel ->
  minimax fuel depth is_maximizing g
  = Some (minimax_value fuel depth is_maximizing g, g).
Proof.
  induction fuel as [|fuel IH]; intros depth im g Hwf Hfuel; [lia|].
  simpl. destruct (leaf_score depth g) as [sc|]; [reflexivity|].
  destruct im.
  - apply minimax_loop_pure
      with (val := fun m => minimax_value fuel (depth + 1) false (set_cell g m "O")).
    + intros m Hm. by apply In_available in Hm as [_ ?].
    + intros m Hm. apply IH; [by apply wf_set_cell|].
      pose proof (count_empty_set_cell g m "O" Hwf Hm ltac:(done)). lia.
  - apply minimax_loop_pure
      with (val := fun m => minimax_value fuel (depth + 1) true (set_cell g m "X")).
    + intros m Hm. by apply In_available in Hm as [_ ?].
    + intros m Hm. apply IH; [by apply wf_set_cell|].
      pose proof (count_empty_set_cell g m "X" Hwf Hm ltac:(done)). lia.
Qed.

Lemma minimax_value_int fuel : forall depth is_maximizing g,
  wf g -> count_empty g < fuel ->
  exists z, minimax_value fuel depth is_maximizing g = Int z.
Proof.
  induction fuel as [|fuel IH]; intros depth im g Hwf Hfuel; [lia|].
  simpl. destruct (leaf_score depth g) as [sc|] eqn:Hleaf.
  - by apply leaf_score_int in Hleaf.
  - apply leaf_score_None, is_board_full_false in Hleaf as [i Hi]; [|done].
    assert (Hne : get_available_moves g <> []) by (intros E; by rewrite E in Hi).
    destruct im.
    + apply fold_py_max_int
        with (val := fun m => minimax_value fuel (depth + 1) false (set_cell g m "O"));
        [|done|by left].
      intros m Hm. apply IH; [by apply wf_set_cell|].
      pose proof (count_empty_set_cell g m "O" Hwf Hm ltac:(done)). lia.
    + apply fold_py_min_int
        with (val := fun m => minimax_value fuel (depth + 1) true (set_cell g m "X"));
        [|done|by left].
      intros m Hm. apply IH; [by apply wf_set_cell|].
      pose proof (count_empty_set_cell g m "X" Hwf Hm ltac:(done)). lia.
Qed.

(** More fuel than empty cells: the result no longer depends on the fuel. *)
Lemma fold_left_ext_in {A B} (f f' : A -> B -> A) (l : list B) (a : A) :
  (forall b x, In x l -> f b x = f' b x) -> fold_left f l a = fold_left f' l a.
Proof.
  revert a. induction l as [|x l IH]; intros a H; simpl; [done|].
  rewrite H by (by left). apply IH. intros b y Hy. apply H. by right.
Qed.

Lemma minimax_value_fuel fuel : forall fuel' depth is_maximizing g,
  wf g -> count_empty g < fuel -> count_empty g < fuel' ->
  minimax_value fuel depth is_maximizing g
  = minimax_value fuel' depth is_maximizing g.
Proof.
  induction fuel as [|fuel IH]; intros fuel' depth im g Hwf Hf Hf'; [lia|].
  destruct fuel' as [|fuel']; [lia|].
  simpl. destruct (leaf_score depth g); [reflexivity|].
  destruct im; apply fold_left_ext_in; intros b m Hm; f_equal.
  - pose proof (count_empty_set_cell g m "O" Hwf Hm ltac:(done)).
    apply IH; [by apply wf_set_cell|lia..].
  - pose proof (count_empty_set_cell g m "X" Hwf Hm ltac:(done)).
    apply IH; [by apply wf_set_cell|lia..].
Qed.

Lemma minimax_fuel_irrelevant fuel fuel' depth is_maximizing g :
  wf g -> count_empty g < fuel -> count_empty g < fuel' ->
  minimax fuel depth is_maximizing g = minimax fuel' depth is_maximizing g.
Proof.
  intros Hwf Hf Hf'. rewrite !minimax_eq_value by done.
  by rewrite (minimax_value_fuel fuel fuel').
Qed.

(** ** The choice of [get_best_move] on scores *)

Lemma best_fold_spec (val : nat -> score) moves : forall bs bm,
  (fold_left (best_step val) moves (bs, bm) = (bs, bm)
   /\ forall j, In j moves -> score_gt (val j) bs = false)
  \/ (exists l1 m l2,
        moves = l1 ++ m :: l2
        /\ fold_left (best_step val) moves (bs, bm) = (val m, Some m)
        /\ score_gt (val m) bs = true
        /\ (forall j, In j l1 -> score_gt (val m) (val j) = true)
        /\ (forall j, In j l2 -> score_gt (val j) (val m) = false)).
Proof.
  induction moves as [|a moves IH]; intros bs bm; simpl.
  - left. split; [reflexivity|]. intros j [].
  - unfold best_step at 2 4. simpl. destruct (score_gt (val a) bs) eqn:Ha.
    + right.
      destruct (IH (val a) (Some a))
        as [[Hr Hle]|(l1 & m & l2 & -> & Hr & Hgt & H1 & H2)].
      * exists [], a, moves. simpl. split_and!; [done..|intros j []|done].
      * exists (a :: l1), m, l2. simpl. split_and!; [done|done| | |done].
        -- by apply score_gt_trans with (val a).
        -- intros j [<-|Hj]; [done|by apply H1].
    + destruct (IH bs bm) as [[Hr Hle]|(l1 & m & l2 & -> & Hr & Hgt & H1 & H2)].
      * left. split; [done|]. intros j [<-|Hj]; [done|by apply Hle].
      * right. exists (a :: l1), m, l2. simpl. split_and!; [done..| |done].
        intros j [<-|Hj]; [|by apply H1].
        by apply score_gt_le_trans with bs.
Qed.

Lemma StronglySorted_filter_lt (f : nat -> bool) l :
  StronglySorted lt l -> StronglySorted lt (List.filter f l).
Proof.
  induction 1 as [|a l Hs IH Hall]; simpl; [constructor|].
  destruct (f a); [|done]. constructor; [done|].
  apply Forall_forall. intros x Hx%list_elem_of_In. apply filter_In in Hx as [Hx _].
  rewrite Forall_forall in Hall. apply Hall. by apply list_elem_of_In.
Qed.

Lemma available_sorted g : StronglySorted lt (get_available_moves g).
Proof.
  unfold get_available_moves. apply StronglySorted_filter_lt.
  simpl. repeat (constructor; [|repeat constructor]). constructor.
Qed.

Lemma sorted_split (l1 l2 : list nat) m :
  StronglySorted lt (l1 ++ m :: l2) ->
  (forall j, In j l1 -> j < m) /\ (forall j, In j l2 -> m < j).
Proof.
  induction l1 as [|a l1 IH]; simpl; intros Hs.
  - apply StronglySorted_inv in Hs as [_ Hall]. rewrite Forall_forall in Hall.
    split; [intros j []|]. intros j Hj. apply Hall. by apply list_elem_of_In.
  - apply StronglySorted_inv in Hs as [Hs Hall]. rewrite Forall_forall in Hall.
    destruct (IH Hs) as [H1 H2]. split; [|done].
    intros j [<-|Hj]; [|by apply H1].
    apply Hall. apply list_elem_of_In, in_or_app. right. by left.
Qed.

Lemma count_empty_le_9 g : count_empty g <= 9.
Proof.
  unfold count_empty, get_available_moves.
  etransitivity; [apply filter_length_le|]. by rewrite length_seq.
Qed.

Lemma is_board_full_iff g : is_board_full g = true <-> ~ In "" (board g).
Proof.
  unfold is_board_full. rewrite negb_true_iff. split.
  - intros Hf Hin. assert (existsb (fun s => String.eqb "" s) (board g) = true); [|congruence].
    apply existsb_exists. by exists "".
  - intros Hn. destruct (existsb _ _) eqn:He; [|done].
    apply existsb_exists in He as (s & Hin & Hs%String.eqb_eq). by subst s.
Qed.

(** ** Moves and available cells *)

Lemma cell_empty_lookup g i :
  wf g -> i < 9 -> (cell g i = "" <-> board g !! i = Some "").
Proof.
  intros Hwf Hi. rewrite cell_lookup by (rewrite Hwf; lia).
  split; [by intros ->|by intros [= ->]].
Qed.

Lemma make_move_legal g position player :
  (0 <= position < 9)%Z -> cell g (Z.to_nat position) = "" ->
  make_move g position player = (true, set_cell g (Z.to_nat position) player).
Proof.
  intros Hr He. unfold make_move.
  replace (0 <=? position)%Z with true by (symmetry; apply Z.leb_le; lia).
  replace (position <? 9)%Z with true by (symmetry; apply Z.ltb_lt; lia).
  rewrite He. reflexivity.
Qed.

Lemma make_move_illegal g position player :
  ~ ((0 <= position < 9)%Z /\ cell g (Z.to_nat position) = "") ->
  make_move g position player = (false, g).
Proof.
  intros Hn. unfold make_move.
  destruct (0 <=? position)%Z eqn:H0; [|done].
  destruct (position <? 9)%Z eqn:H9; [|done].
  destruct (String.eqb _ _) eqn:He; [|done].
  exfalso. apply Hn. apply Z.leb_le in H0. apply Z.ltb_lt in H9.
  apply String.eqb_eq in He. auto.
Qed.

Lemma classic_dec_range position g :
  {(0 <= position < 9)%Z /\ cell g (Z.to_nat position) = ""}
  + {~ ((0 <= position < 9)%Z /\ cell g (Z.to_nat position) = "")}.
Proof.
  destruct (decide ((0 <= position < 9)%Z /\ cell g (Z.to_nat position) = ""));
    [by left|by right].
Qed.

(** C4. [make_move(index, mark)] returns true and writes the mark into the
    cell exactly when [0 <= index < 9] and the cell is empty; otherwise it
    returns false and leaves the board as it was.  Nothing in it looks at
    the outcome of the board: on the board whose first row X has already
    won, a move on an empty cell is accepted. *)
Theorem make_move_spec (g : TicTacToe) (position : Z) (player : string) :
  wf g ->
  let i := Z.to_nat position in
  let legal := (0 <= position < 9)%Z /\ board g !! i = Some "" in
  (fst (make_move g position player) = true <-> legal)
  /\ (legal ->
      make_move g position player = (true, set_cell g i player)
      /\ board (set_cell g i player) !! i = Some player
      /\ forall j, j <> i -> board (set_cell g i player) !! j = board g !! j)
  /\ (~ legal -> make_move g position player = (false, g))
  /\ (evaluate_outcome board_x_row = Win "X"
      /\ fst (make_move board_x_row 3 "O") = true).
Proof.
  intros Hwf i legal.
  assert (Hleg : legal <-> (0 <= position < 9)%Z /\ cell g i = "").
  { unfold legal. split; intros [Hr He]; (split; [done|]);
      apply (cell_empty_lookup g i Hwf); try done; subst i; lia. }
  split_and!.
  - split.
    + intros Hok. apply Hleg. destruct (classic_dec_range position g) as [Hy|Hn].
      * done.
      * by rewrite (make_move_illegal _ _ _ Hn) in Hok.
    + intros [Hr He]%Hleg. by rewrite make_move_legal.
  - intros Hl. pose proof Hl as [Hr He]%Hleg. split_and!.
    + by apply make_move_legal.
    + simpl. apply list_lookup_insert_eq. rewrite Hwf. subst i. lia.
    + intros j Hj. simpl. by apply list_lookup_insert_ne.
  - intros Hn. apply make_move_illegal. intros H. by apply Hn, Hleg.
  - reflexivity.
  - reflexivity.
Qed.

Lemma make_move_spec_witness :
  wf board_o_to_win
  /\ (fst (make_move board_o_to_win 2 "O") = true
      <-> (0 <= 2 < 9)%Z /\ board board_o_to_win !! Z.to_nat 2 = Some "").
Proof.
  split; [reflexivity|].
  exact (proj1 (make_move_spec board_o_to_win 2 "O" eq_refl)).
Defined.

(** C10. [make_move] does not look at its mark: on an in-range empty cell it
    returns true for every mark, the empty-cell sentinel included, and then
    the cell is still empty and its index still among the available
    moves. *)
Theorem make_move_no_mark_validation (g : TicTacToe) (position : Z)
    (mark : string) :
  wf g -> (0 <= position < 9)%Z -> board g !! Z.to_nat position = Some "" ->
  fst (make_move g position mark) = true
  /\ make_move g position "" = (true, g)
  /\ board (snd (make_move g position "")) !! Z.to_nat position = Some ""
  /\ In (Z.to_nat position)
        (get_available_moves (snd (make_move g position ""))).
Proof.
  intros Hwf Hr Hl.
  assert (He : cell g (Z.to_nat position) = "").
  { apply cell_empty_lookup; [done|lia|done]. }
  assert (Hid : make_move g position "" = (true, g)).
  { rewrite make_move_legal by done. f_equal.
    destruct g as [b p]. unfold set_cell; simpl in *. f_equal.
    by apply list_insert_id. }
  split_and!.
  - by rewrite make_move_legal.
  - done.
  - by rewrite Hid.
  - rewrite Hid. simpl. apply In_available. split; [lia|done].
Qed.

Lemma make_move_no_mark_validation_witness :
  (wf init /\ (0 <= 4 < 9)%Z /\ board init !! Z.to_nat 4 = Some "")
  /\ make_move init 4 "" = (true, init).
Proof.
  split; [split_and!; first [reflexivity|lia]|].
  refine (proj1 (proj2 (make_move_no_mark_validation init 4 "Z" eq_refl _ eq_refl))).
  lia.
Defined.



(** ** Winning lines and the outcome *)

Lemma combo_wins_spec g combo :
  combo_wins g combo = true <-> exists mark, line_won_by g combo mark.
Proof.
  destruct combo as [[c0 c1] c2]. unfold combo_wins, line_won_by; simpl.
  rewrite !andb_true_iff, negb_true_iff, !String.eqb_eq, String.eqb_neq.
  split.
  - intros [[H01 H12] Hne]. exists (cell g c0).
    split_and!; congruence.
  - intros (mark & H0 & H1 & H2 & Hne). split_and!; congruence.
Qed.

Lemma combo_wins_false g combo :
  combo_wins g combo = false <-> forall mark, ~ line_won_by g combo mark.
Proof.
  split.
  - intros Hf mark Hw.
    assert (combo_wins g combo = true) by (apply combo_wins_spec; eauto).
    congruence.
  - intros Hn. destruct (combo_wins g combo) eqn:Hc; [|done].
    apply combo_wins_spec in Hc as [mark Hw]. by destruct (Hn mark).
Qed.

Lemma scan_combos_Some g combos mark :
  scan_combos g combos = Some mark <->
  exists k combo,
    combos !! k = Some combo /\ line_won_by g combo mark
    /\ forall j combo' mark',
         j < k -> combos !! j = Some combo' -> ~ line_won_by g combo' mark'.
Proof.
  induction combos as [|c combos IH]; simpl.
  - split; [done|]. by intros (k & combo & Hk & _).
  - destruct (combo_wins g c) eqn:Hc.
    + split.
      * intros [= <-]. exists 0, c. split_and!; [done| |intros; lia].
        apply combo_wins_spec in Hc as [mark Hw].
        destruct Hw as (<- & H1 & H2 & Hne). by unfold line_won_by.
      * intros (k & combo & Hk & Hw & Hbefore). destruct k as [|k].
        -- injection Hk as <-. f_equal. by destruct Hw as (H0 & _).
        -- apply combo_wins_spec in Hc as [mark' Hw'].
           destruct (Hbefore 0 c mark'); [lia|done|done].
    + rewrite IH. split.
      * intros (k & combo & Hk & Hw & Hbefore). exists (S k), combo.
        split_and!; [done..|]. intros [|j] combo' mark' Hj Hl.
        -- injection Hl as <-. by apply combo_wins_false.
        -- apply (Hbefore j); [lia|done].
      * intros (k & combo & Hk & Hw & Hbefore). destruct k as [|k].
        -- injection Hk as <-. by apply combo_wins_false in Hw.
        -- exists k, combo. split_and!; [done..|].
           intros j combo' mark' Hj Hl. apply (Hbefore (S j)); [lia|done].
Qed.

Lemma scan_combos_None g combos :
  scan_combos g combos = None <->
  forall combo mark, In combo combos -> ~ line_won_by g combo mark.
Proof.
  induction combos as [|c combos IH]; simpl.
  - split; [intros _ ? ? []|done].
  - destruct (combo_wins g c) eqn:Hc.
    + split; [done|]. intros Hn.
      apply combo_wins_spec in Hc as [mark Hw]. destruct (Hn c mark); auto.
    + rewrite IH. split.
      * intros Hn combo mark [<-|Hin]; [by apply combo_wins_false|by apply Hn].
      * intros Hn combo mark Hin. apply Hn. by right.
Qed.

(** C6. A line is won by a mark when its three cells hold that mark and the
    mark is not the empty cell; the lines are scanned rows first, then
    columns, then diagonals, and the first won line gives [Win mark]; with
    no won line the outcome is [Draw] when no cell is empty and
    [InProgress] otherwise; the empty board is [InProgress]. *)
Theorem evaluate_outcome_spec (g : TicTacToe) :
  wf g ->
  (forall combo,
     combo_wins g combo = true <-> exists mark, line_won_by g combo mark)
  /\ winning_combinations = rows ++ columns ++ diagonals
  /\ (forall mark,
        evaluate_outcome g = Win mark <->
        exists k combo,
          winning_combinations !! k = Some combo /\ line_won_by g combo mark
          /\ forall j combo' mark',
               j < k -> winning_combinations !! j = Some combo' ->
               ~ line_won_by g combo' mark')
  /\ (evaluate_outcome g = Draw <->
      (forall combo mark,
         In combo winning_combinations -> ~ line_won_by g combo mark)
      /\ ~ In "" (board g))
  /\ (evaluate_outcome g = InProgress <->
      (forall combo mark,
         In combo winning_combinations -> ~ line_won_by g combo mark)
      /\ In "" (board g))
  /\ evaluate_outcome init = InProgress.
Proof.
  intros _. split_and!.
  - apply combo_wins_spec.
  - reflexivity.
  - intros mark. rewrite <- scan_combos_Some. fold (check_winner g).
    unfold evaluate_outcome. destruct (check_winner g) as [w|].
    + split; congruence.
    + destruct (is_board_full g); split; congruence.
  - rewrite <- scan_combos_None, <- is_board_full_iff. fold (check_winner g).
    unfold evaluate_outcome. destruct (check_winner g) as [w|].
    + split; [done|by intros [? _]].
    + destruct (is_board_full g); split; try done. by intros [_ ?].
  - rewrite <- scan_combos_None. fold (check_winner g).
    unfold evaluate_outcome. destruct (check_winner g) as [w|].
    + split; [done|by intros [? _]].
    + destruct (is_board_full g) eqn:Hf.
      * split; [done|]. intros [_ Hin]. by apply is_board_full_iff in Hf.
      * split; [|done]. intros _. split; [done|].
        destruct (in_dec String.string_dec "" (board g)) as [|Hn]; [done|].
        apply is_board_full_iff in Hn. congruence.
  - reflexivity.
Qed.

Lemma evaluate_outcome_spec_witness :
  wf board_x_row /\ evaluate_outcome board_x_row = Win "X".
Proof.
  split; [reflexivity|].
  apply (proj1 (proj2 (proj2 (evaluate_outcome_spec board_x_row eq_refl)))).
  exists 0, (0, 1, 2). split_and!; [reflexivity| |intros; lia].
  unfold line_won_by. simpl. split_and!; [reflexivity..|discriminate].
Defined.

(** ** Termination of the search *)


Lemma leaf_score_None_moves depth g :
  wf g -> leaf_score depth g = None -> get_available_moves g <> [].
Proof.
  intros Hwf Hl. apply leaf_score_None, is_board_full_false in Hl as [i Hi]; [|done].
  intros E. by rewrite E in Hi.
Qed.



(** ** [get_best_move] on scores *)

Lemma get_best_move_eq fuel g :
  wf g -> count_empty g < fuel ->
  get_best_move fuel g
  = Some (match get_available_moves g with
          | [] => NoMove
          | _ :: _ =>
              match snd (fold_left
                           (best_step (fun m => minimax_value fuel 0 false
                                                  (set_cell g m "O")))
                           (get_available_moves g) (NegInf, None)) with
              | Some move => Move move
              | None => RandomChoice (get_available_moves g)
              end
          end, g).
Proof.
  intros Hwf Hfuel. unfold get_best_move.
  destruct (get_available_moves g) as [|a l] eqn:Ha; [reflexivity|].
  rewrite <- Ha.
  rewrite best_move_loop_pure
    with (val := fun m => minimax_value fuel 0 false (set_cell g m "O")).
  - by destruct (fold_left _ _ _) as [bs [m|]].
  - intros m Hm. by apply In_available in Hm as [_ ?].
  - intros m Hm. apply minimax_eq_value; [by apply wf_set_cell|].
    pose proof (count_empty_set_cell g m "O" Hwf Hm ltac:(done)). lia.
Qed.

Lemma move_value_int fuel g m :
  wf g -> count_empty g < fuel -> In m (get_available_moves g) ->
  exists z, minimax_value fuel 0 false (set_cell g m "O") = Int z.
Proof.
  intros Hwf Hfuel Hm. apply minimax_value_int; [by apply wf_set_cell|].
  pose proof (count_empty_set_cell g m "O" Hwf Hm ltac:(done)). lia.
Qed.

(** The choice of [get_best_move] when a move is available. *)
Lemma get_best_move_choice fuel g :
  wf g -> count_empty g < fuel -> get_available_moves g <> [] ->
  exists l1 move l2,
    get_available_moves g = l1 ++ move :: l2
    /\ get_best_move fuel g = Some (Move move, g)
    /\ (forall j, In j l1 ->
          score_gt (minimax_value fuel 0 false (set_cell g move "O"))
                   (minimax_value fuel 0 false (set_cell g j "O")) = true)
    /\ (forall j, In j l2 ->
          score_gt (minimax_value fuel 0 false (set_cell g j "O"))
                   (minimax_value fuel 0 false (set_cell g move "O")) = false).
Proof.
  intros Hwf Hfuel Hne. rewrite get_best_move_eq by done.
  set (val := fun m => minimax_value fuel 0 false (set_cell g m "O")).
  destruct (best_fold_spec val (get_available_moves g) NegInf None)
    as [[_ Hle]|(l1 & m & l2 & Hsplit & Hr & _ & H1 & H2)].
  - destruct (get_available_moves g) as [|a l] eqn:Ha; [done|].
    destruct (move_value_int fuel g a Hwf Hfuel) as [z Hz]; [rewrite Ha; by left|].
    specialize (Hle a ltac:(by left)). unfold val in Hle. by rewrite Hz in Hle.
  - exists l1, m, l2. split_and!; [done| |done..].
    rewrite Hr. simpl. destruct (get_available_moves g); [|done].
    by destruct l1.
Qed.

(** C5. The board after [get_best_move] is the board before it, cell for
    cell: every mark placed by the search, at the root and inside
    [minimax], has been retracted. *)
Theorem get_best_move_restores (g : TicTacToe) (fuel : nat) :
  wf g -> count_empty g < fuel ->
  (exists result, get_best_move fuel g = Some (result, g))
  /\ (forall depth is_maximizing,
        exists sc, minimax fuel depth is_maximizing g = Some (sc, g)).
Proof.
  intros Hwf Hfuel. split.
  - rewrite get_best_move_eq by done. eauto.
  - intros depth im. rewrite minimax_eq_value by done. eauto.
Qed.

Lemma get_best_move_restores_witness :
  (wf board_o_to_win /\ count_empty board_o_to_win < search_fuel)
  /\ exists result,
       get_best_move search_fuel board_o_to_win = Some (result, board_o_to_win).
Proof.
  split; [split; [reflexivity|vm_compute; lia]|].
  refine (proj1 (get_best_move_restores board_o_to_win search_fuel eq_refl _)).
  vm_compute; lia.
Defined.

(** C8. [get_best_move] returns [None] exactly when no cell is empty; with
    an empty cell it returns one of the available moves, and never falls
    back on [random.choice]. *)
Theorem get_best_move_result (g : TicTacToe) (fuel : nat) :
  wf g -> count_empty g < fuel ->
  (get_best_move fuel g = Some (NoMove, g) <-> ~ In "" (board g))
  /\ (In "" (board g) ->
      exists move,
        In move (get_available_moves g)
        /\ get_best_move fuel g = Some (Move move, g))
  /\ (forall available g',
        get_best_move fuel g <> Some (RandomChoice available, g')).
Proof.
  intros Hwf Hfuel.
  assert (Hfull : ~ In "" (board g) <-> get_available_moves g = []).
  { rewrite <- is_board_full_iff. split; [by apply is_board_full_true|].
    intros Ha. destruct (is_board_full g) eqn:Hf; [done|].
    apply is_board_full_false in Hf as [i Hi]; [|done]. by rewrite Ha in Hi. }
  assert (Hmove : get_available_moves g <> [] ->
                  exists move, In move (get_available_moves g)
                               /\ get_best_move fuel g = Some (Move move, g)).
  { intros Hne.
    destruct (get_best_move_choice fuel g Hwf Hfuel Hne)
      as (l1 & m & l2 & Hs & Hr & _).
    exists m. split; [|done]. rewrite Hs. apply in_or_app. right. by left. }
  split_and!.
  - rewrite Hfull. split.
    + intros Hr. destruct (get_available_moves g) eqn:Ha; [done|].
      destruct Hmove as (m & _ & Hm); [done|]. congruence.
    + intros Ha. unfold get_best_move. by rewrite Ha.
  - intros Hin. apply Hmove. intros Ha. by apply Hfull in Ha.
  - intros available g' Hr.
    destruct (get_available_moves g) eqn:Ha.
    + unfold get_best_move in Hr. by rewrite Ha in Hr.
    + destruct Hmove as (m & _ & Hm); [done|]. congruence.
Qed.

Lemma get_best_move_result_witness :
  (wf board_o_to_win /\ count_empty board_o_to_win < search_fuel)
  /\ (get_best_move search_fuel board_o_to_win = Some (NoMove, board_o_to_win)
      <-> ~ In "" (board board_o_to_win)).
Proof.
  split; [split; [reflexivity|vm_compute; lia]|].
  refine (proj1 (get_best_move_result board_o_to_win search_fuel eq_refl _)).
  vm_compute; lia.
Defined.

(** C2. With a move available, [get_best_move] returns the available move
    of greatest [minimax] score, and among the moves of that score the one
    of lowest index: every other available move scores no more, and every
    available move of lower index scores strictly less. *)
Theorem get_best_move_argmax (g : TicTacToe) (fuel : nat) :
  wf g -> count_empty g < fuel -> get_available_moves g <> [] ->
  exists move best,
    get_best_move fuel g = Some (Move move, g)
    /\ In move (get_available_moves g)
    /\ minimax fuel 0 false (set_cell g move "O")
       = Some (Int best, set_cell g move "O")
    /\ forall j, In j (get_available_moves g) ->
         exists sj,
           minimax fuel 0 false (set_cell g j "O")
           = Some (Int sj, set_cell g j "O")
           /\ (sj <= best)%Z /\ (j < move -> (sj < best)%Z).
Proof.
  intros Hwf Hfuel Hne.
  destruct (get_best_move_choice fuel g Hwf Hfuel Hne)
    as (l1 & m & l2 & Hs & Hr & H1 & H2).
  assert (Hin : In m (get_available_moves g)).
  { rewrite Hs. apply in_or_app. right. by left. }
  assert (Hcall : forall j, In j (get_available_moves g) ->
            minimax fuel 0 false (set_cell g j "O")
            = Some (minimax_value fuel 0 false (set_cell g j "O"),
                    set_cell g j "O")).
  { intros j Hj. apply minimax_eq_value; [by apply wf_set_cell|].
    pose proof (count_empty_set_cell g j "O" Hwf Hj ltac:(done)). lia. }
  destruct (move_value_int fuel g m Hwf Hfuel Hin) as [best Hbest].
  exists m, best. split_and!; [done..| |].
  { by rewrite Hcall, Hbest. }
  intros j Hj. destruct (move_value_int fuel g j Hwf Hfuel Hj) as [sj Hsj].
  exists sj. split; [by rewrite Hcall, Hsj|].
  pose proof (available_sorted g) as Hsorted. rewrite Hs in Hsorted.
  apply sorted_split in Hsorted as [Hlt Hgt].
  rewrite Hs in Hj. apply in_app_or in Hj as [Hj|[<-|Hj]].
  - specialize (H1 j Hj). rewrite Hbest, Hsj in H1. simpl in H1.
    apply Z.ltb_lt in H1. lia.
  - assert (sj = best) by congruence. lia.
  - specialize (H2 j Hj). rewrite Hbest, Hsj in H2. simpl in H2.
    apply Z.ltb_ge in H2. specialize (Hgt j Hj). lia.
Qed.

Lemma get_best_move_argmax_witness :
  (wf board_o_to_win /\ count_empty board_o_to_win < search_fuel
   /\ get_available_moves board_o_to_win <> [])
  /\ exists move best,
       get_best_move search_fuel board_o_to_win
       = Some (Move move, board_o_to_win)
       /\ In move (get_available_moves board_o_to_win)
       /\ minimax search_fuel 0 false (set_cell board_o_to_win move "O")
          = Some (Int best, set_cell board_o_to_win move "O")
       /\ forall j, In j (get_available_moves board_o_to_win) ->
            exists sj,
              minimax search_fuel 0 false (set_cell board_o_to_win j "O")
              = Some (Int sj, set_cell board_o_to_win j "O")
              /\ (sj <= best)%Z /\ (j < move -> (sj < best)%Z).
Proof.
  split; [split_and!; [reflexivity|vm_compute; lia|discriminate]|].
  refine (get_best_move_argmax board_o_to_win search_fuel eq_refl _ _).
  - vm_compute; lia.
  - discriminate.
Defined.

(** The specification's example: with two O in the first row and the third
    cell free, the search completes the row; the other moves score less. *)
Example get_best_move_takes_win :
  get_best_move search_fuel board_o_to_win = Some (Move 2, board_o_to_win)
  /\ map (fun m => minimax search_fuel 0 false (set_cell board_o_to_win m "O"))
       (get_available_moves board_o_to_win)
     = map (fun '(m, z) => Some (Int z, set_cell board_o_to_win m "O"))
         [(2, 10%Z); (5, 0%Z); (6, (-9)%Z); (7, (-9)%Z); (8, (-9)%Z)].
Proof. split; vm_compute; reflexivity. Qed.

(** ** Depth and plies *)

Lemma filter_length_remove_one (P Q : nat -> bool) (a n : nat) :
  a < n -> P a = true -> Q a = false -> (forall x, x <> a -> Q x = P x) ->
  S (length (List.filter Q (seq 0 n))) = length (List.filter P (seq 0 n)).
Proof.
  intros Han Hp Hq Hother.
  replace n with (a + S (n - S a)) by lia.
  rewrite seq_app. simpl.
  rewrite !List.filter_app. simpl. rewrite Hp, Hq. rewrite !length_app. simpl.
  rewrite (List.filter_ext_in Q P (seq 0 a)).
  - rewrite (List.filter_ext_in Q P (seq (S a) (n - S a))); [lia|].
    intros x Hx%in_seq. apply Hother. lia.
  - intros x Hx%in_seq. apply Hother. lia.
Qed.

(** Placing a mark on an available cell removes exactly one empty cell. *)
Lemma count_empty_set_cell_exact g move mark :
  wf g -> In move (get_available_moves g) -> mark <> "" ->
  S (count_empty (set_cell g move mark)) = count_empty g.
Proof.
  intros Hwf Hin Hmark. apply In_available in Hin as [Hlt He].
  unfold count_empty, get_available_moves.
  apply filter_length_remove_one with (a := move); [done| | |].
  - by apply String.eqb_eq.
  - rewrite cell_set_cell_eq by (rewrite Hwf; lia). by apply String.eqb_neq.
  - intros x Hx. by rewrite cell_set_cell_ne.
Qed.

(** *** The recorded search is the search *)

Lemma minimax_loop_calls_forget call call' mark pick moves :
  (forall g, call g = forget_calls (call' g)) ->
  forall best g calls,
    minimax_loop call mark pick moves best g
    = forget_calls (minimax_loop_calls call' mark pick moves best g calls).
Proof.
  intros Hcall. induction moves as [|a moves IH]; intros best g calls; simpl.
  - reflexivity.
  - rewrite Hcall.
    destruct (call' (set_cell g a mark)) as [[[sc g1] made]|]; simpl;
      [apply IH|reflexivity].
Qed.

Lemma minimax_calls_forget fuel : forall depth is_maximizing g,
  minimax fuel depth is_maximizing g
  = forget_calls (minimax_calls fuel depth is_maximizing g).
Proof.
  induction fuel as [|fuel IH]; intros depth im g; simpl; [reflexivity|].
  destruct (leaf_score depth g); [reflexivity|].
  destruct im.
  - rewrite (minimax_loop_calls_forget _ (minimax_calls fuel (depth + 1) false)
               "O" py_max _ ltac:(intros; apply IH) NegInf g []).
    by destruct (minimax_loop_calls _ _ _ _ _ _ _) as [[[sc g'] made]|].
  - rewrite (minimax_loop_calls_forget _ (minimax_calls fuel (depth + 1) true)
               "X" py_min _ ltac:(intros; apply IH) PosInf g []).
    by destruct (minimax_loop_calls _ _ _ _ _ _ _) as [[[sc g'] made]|].
Qed.

Lemma best_move_loop_calls_forget call call' moves :
  (forall g, call g = forget_calls (call' g)) ->
  forall best_score best g calls,
    best_move_loop call moves best_score best g
    = forget_calls (best_move_loop_calls call' moves best_score best g calls).
Proof.
  intros Hcall.
  induction moves as [|a moves IH]; intros bs bm g calls; simpl.
  - reflexivity.
  - rewrite Hcall.
    destruct (call' (set_cell g a "O")) as [[[sc g1] made]|]; simpl;
      [|reflexivity].
    destruct (score_gt sc bs); apply IH.
Qed.

(** Without the record of the calls, [get_best_move_calls] is
    [get_best_move], on every board and with every fuel. *)
Lemma get_best_move_calls_forget fuel g :
  get_best_move fuel g = forget_calls (get_best_move_calls fuel g).
Proof.
  unfold get_best_move, get_best_move_calls.
  destruct (get_available_moves g) as [|a l]; [reflexivity|].
  rewrite (best_move_loop_calls_forget _ (minimax_calls fuel 0 false) _
             ltac:(intros; apply minimax_calls_forget) NegInf None g []).
  by destruct (best_move_loop_calls _ _ _ _ _ _)
    as [[[[bs [m|]] g'] calls]|].
Qed.

(** *** The calls the loops make *)

Lemma minimax_loop_calls_made call mark pick moves g :
  (forall m, In m moves -> cell g m = "") ->
  (forall m, In m moves ->
     exists sc made, call (set_cell g m mark) = Some (sc, set_cell g m mark, made)) ->
  forall best calls,
  exists sc made,
    minimax_loop_calls call mark pick moves best g calls
    = Some (sc, g, calls ++ made)
    /\ forall c, In c made <->
         exists m sc' made', In m moves
           /\ call (set_cell g m mark) = Some (sc', set_cell g m mark, made')
           /\ In c made'.
Proof.
  induction moves as [|a moves IH]; intros He Hc best calls; simpl.
  - exists best, []. rewrite app_nil_r. split; [reflexivity|].
    intros c. split; [done|]. by intros (m & _ & _ & [] & _).
  - destruct (Hc a ltac:(by left)) as (sc & made & Ha). rewrite Ha.
    rewrite set_cell_retract by (apply He; by left).
    destruct (IH ltac:(intros m Hm; apply He; by right)
                 ltac:(intros m Hm; apply Hc; by right)
                 (pick sc best) (calls ++ made))
      as (sc' & made' & -> & Hiff).
    exists sc', (made ++ made'). rewrite app_assoc. split; [reflexivity|].
    intros c. rewrite in_app_iff, Hiff. split.
    + intros [Hin|(m & s & l & Hm & Hcall & Hin)].
      * exists a, sc, made. split_and!; [by left|done..].
      * exists m, s, l. split_and!; [by right|done..].
    + intros (m & s & l & [<-|Hm] & Hcall & Hin).
      * left. rewrite Ha in Hcall. by injection Hcall as _ <-.
      * right. by exists m, s, l.
Qed.

Lemma best_move_loop_calls_made call moves g :
  (forall m, In m moves -> cell g m = "") ->
  (forall m, In m moves ->
     exists sc made, call (set_cell g m "O") = Some (sc, set_cell g m "O", made)) ->
  forall best_score best calls,
  exists sc bm made,
    best_move_loop_calls call moves best_score best g calls
    = Some (sc, bm, g, calls ++ made)
    /\ forall c, In c made <->
         exists m sc' made', In m moves
           /\ call (set_cell g m "O") = Some (sc', set_cell g m "O", made')
           /\ In c made'.
Proof.
  induction moves as [|a moves IH]; intros He Hc bs bm calls; simpl.
  - exists bs, bm, []. rewrite app_nil_r. split; [reflexivity|].
    intros c. split; [done|]. by intros (m & _ & _ & [] & _).
  - destruct (Hc a ltac:(by left)) as (sc & made & Ha). rewrite Ha.
    rewrite set_cell_retract by (apply He; by left).
    assert (Hrest : forall bs' bm',
      exists sc' bm'' made',
        best_move_loop_calls call moves bs' bm' g (calls ++ made)
        = Some (sc', bm'', g, calls ++ made ++ made')
        /\ forall c, In c (made ++ made') <->
             exists m sc'' made'', In m (a :: moves)
               /\ call (set_cell g m "O") = Some (sc'', set_cell g m "O", made'')
               /\ In c made'').
    { intros bs' bm'.
      destruct (IH ltac:(intros m Hm; apply He; by right)
                   ltac:(intros m Hm; apply Hc; by right)
                   bs' bm' (calls ++ made))
        as (sc' & bm'' & made' & -> & Hiff).
      exists sc', bm'', made'. rewrite app_assoc. split; [reflexivity|].
      intros c. rewrite in_app_iff, Hiff. split.
      + intros [Hin|(m & s & l & Hm & Hcall & Hin)].
        * exists a, sc, made. split_and!; [by left|done..].
        * exists m, s, l. split_and!; [by right|done..].
      + intros (m & s & l & [<-|Hm] & Hcall & Hin).
        * left. rewrite Ha in Hcall. by injection Hcall as _ <-.
        * right. by exists m, s, l. }
    destruct (score_gt sc bs);
      [destruct (Hrest sc (Some a)) as (sc' & bm'' & made' & -> & Hiff)
      |destruct (Hrest bs bm) as (sc' & bm'' & made' & -> & Hiff)];
      by exists sc', bm'', (made ++ made').
Qed.

(** *** Depth and plies *)

Lemma call_ok_weaken lo lo' level c :
  (lo' <= lo)%Z -> call_ok lo level c -> call_ok lo' level c.
Proof. intros Hle (Hwf & Hlo & Hlevel & Hsc). split_and!; [done|lia|done..]. Qed.

(** A call of [minimax] records itself first; every call recorded has a
    depth that grew by one for each mark placed since, and a score that is
    the one [minimax] returns; and the record holds the calls below each
    of its calls. *)
Lemma minimax_calls_spec fuel : forall depth is_maximizing g,
  wf g -> count_empty g < fuel ->
  exists sc made,
    minimax_calls fuel depth is_maximizing g
    = Some (sc, g, Call depth is_maximizing g sc :: made)
    /\ Forall (call_ok depth (Z.of_nat (count_empty g) + depth))
         (Call depth is_maximizing g sc :: made)
    /\ calls_closed (Call depth is_maximizing g sc :: made).
Proof.
  induction fuel as [|fuel IH]; intros depth im g Hwf Hfuel; [lia|].
  destruct (leaf_score depth g) as [sc|] eqn:Hleaf.
  - exists sc, []. simpl. rewrite Hleaf. split_and!; [reflexivity| |].
    + constructor; [|constructor]. split_and!; simpl; [done|lia|done|].
      intros [|f] Hf; [lia|]. simpl. by rewrite Hleaf.
    + intros c [<-|[]]. simpl. congruence.
  - set (mark := if im then "O" else "X").
    set (pick := if im then py_max else py_min).
    set (start := if im then NegInf else PosInf).
    assert (Hmark : mark <> "") by (by destruct im).
    assert (Hsub : forall m, In m (get_available_moves g) ->
      exists sc made,
        minimax_calls fuel (depth + 1) (negb im) (set_cell g m mark)
        = Some (sc, set_cell g m mark,
                Call (depth + 1) (negb im) (set_cell g m mark) sc :: made)
        /\ Forall (call_ok depth (Z.of_nat (count_empty g) + depth))
             (Call (depth + 1) (negb im) (set_cell g m mark) sc :: made)
        /\ calls_closed
             (Call (depth + 1) (negb im) (set_cell g m mark) sc :: made)).
    { intros m Hm.
      pose proof (count_empty_set_cell_exact g m mark Hwf Hm Hmark) as Hcount.
      destruct (IH (depth + 1)%Z (negb im) (set_cell g m mark))
        as (sc & made & Heq & Hok & Hclosed); [by apply wf_set_cell|lia|].
      exists sc, made. split_and!; [done| |done].
      eapply Forall_impl; [exact Hok|]. intros c Hc.
      apply (call_ok_weaken (depth + 1)); [lia|].
      replace (Z.of_nat (count_empty g) + depth)%Z
        with (Z.of_nat (count_empty (set_cell g m mark)) + (depth + 1))%Z by lia.
      exact Hc. }
    destruct (minimax_loop_calls_made
                (minimax_calls fuel (depth + 1) (negb im)) mark pick
                (get_available_moves g) g
                ltac:(intros m Hm; by apply In_available in Hm as [_ ?])
                ltac:(intros m Hm;
                      destruct (Hsub m Hm) as (s & l & -> & _); eauto)
                start [])
      as (sc & made & Hloop & Hiff).
    assert (Hcalls : minimax_calls (S fuel) depth im g
                     = Some (sc, g, Call depth im g sc :: made)).
    { simpl. rewrite Hleaf. unfold mark, pick, start in Hloop.
      destruct im; simpl in Hloop; by rewrite Hloop. }
    exists sc, made. split_and!; [done| |].
    + constructor.
      * split_and!; simpl; [done|lia|done|].
        intros f Hf. rewrite (minimax_fuel_irrelevant f (S fuel)) by done.
        rewrite minimax_calls_forget, Hcalls. reflexivity.
      * apply List.Forall_forall. intros c (m & s & l & Hm & Hcall & Hin)%Hiff.
        destruct (Hsub m Hm) as (s' & l' & Heq & Hok & _).
        rewrite Heq in Hcall. injection Hcall as _ <-.
        by eapply List.Forall_forall in Hok.
    + intros c [<-|(m & s & l & Hm & Hcall & Hin)%Hiff] Hl move Hmove.
      * simpl in *. fold mark.
        destruct (Hsub move Hmove) as (s & l & Heq & _).
        exists s. right. apply Hiff. eexists move, s, _.
        split_and!; [exact Hmove|exact Heq|by left].
      * destruct (Hsub m Hm) as (s' & l' & Heq & _ & Hclosed).
        rewrite Heq in Hcall. injection Hcall as _ <-.
        destruct (Hclosed c Hin Hl move Hmove) as [s'' Hin'].
        exists s''. right. apply Hiff. eexists m, s', _. split_and!; [exact Hm|exact Heq|exact Hin'].
Qed.

(** C3, as the code has it.  One run of [get_best_move] on [root] calls
    [minimax] on every board it gets by placing O on an available cell,
    and below every call that does not return early on every board that
    call gets by placing the next mark.  Each of these calls is made with
    [depth = plies - 1], where [plies] is the number of marks placed since
    [root], the root's own candidate mark not being counted; and on a
    terminal state it returns [10 - (plies - 1)] when O has won,
    [(plies - 1) - 10] when X has won, [0] when neither has and the board
    is full. *)
Theorem terminal_scores (root : TicTacToe) (fuel : nat) :
  wf root -> count_empty root < fuel ->
  exists result calls,
    get_best_move_calls fuel root = Some (result, root, calls)
    /\ get_best_move fuel root = Some (result, root)
    /\ (forall move, In move (get_available_moves root) ->
          exists sc, In (Call 0 false (set_cell root move "O") sc) calls)
    /\ calls_closed calls
    /\ forall c, In c calls ->
         let g := call_board c in
         let d := (Z.of_nat (plies root g) - 1)%Z in
         call_depth c = d
         /\ minimax fuel (call_depth c) (call_is_maximizing c) g
            = Some (call_score c, g)
         /\ (check_winner g = Some "O" -> call_score c = Int (10 - d))
         /\ (check_winner g = Some "X" -> call_score c = Int (d - 10))
         /\ (check_winner g <> Some "O" -> check_winner g <> Some "X" ->
             is_board_full g = true -> call_score c = Int 0).
Proof.
  intros Hwf Hfuel.
  assert (Hsub : forall m, In m (get_available_moves root) ->
    exists sc made,
      minimax_calls fuel 0 false (set_cell root m "O")
      = Some (sc, set_cell root m "O",
              Call 0 false (set_cell root m "O") sc :: made)
      /\ Forall (call_ok 0 (Z.of_nat (count_empty root) - 1))
           (Call 0 false (set_cell root m "O") sc :: made)
      /\ calls_closed (Call 0 false (set_cell root m "O") sc :: made)).
  { intros m Hm.
    pose proof (count_empty_set_cell_exact root m "O" Hwf Hm ltac:(done)).
    destruct (minimax_calls_spec fuel 0 false (set_cell root m "O"))
      as (sc & made & Heq & Hok & Hclosed); [by apply wf_set_cell|lia|].
    exists sc, made. split_and!; [done| |done].
    replace (Z.of_nat (count_empty root) - 1)%Z
      with (Z.of_nat (count_empty (set_cell root m "O")) + 0)%Z by lia.
    exact Hok. }
  assert (Hrun : exists result calls,
    get_best_move_calls fuel root = Some (result, root, calls)
    /\ forall c, In c calls <->
         exists m sc made, In m (get_available_moves root)
           /\ minimax_calls fuel 0 false (set_cell root m "O")
              = Some (sc, set_cell root m "O", made)
           /\ In c made).
  { unfold get_best_move_calls.
    destruct (get_available_moves root) as [|a l] eqn:Ha.
    - exists NoMove, []. split; [reflexivity|].
      intros c. split; [done|]. by intros (m & _ & _ & [] & _).
    - rewrite <- Ha in *.
      destruct (best_move_loop_calls_made (minimax_calls fuel 0 false)
                  (get_available_moves root) root
                  ltac:(intros m Hm; by apply In_available in Hm as [_ ?])
                  ltac:(intros m Hm;
                        destruct (Hsub m Hm) as (s & l' & -> & _); eauto)
                  NegInf None [])
        as (sc & bm & made & -> & Hiff).
      simpl. destruct bm as [m|]; eauto. }
  destruct Hrun as (result & calls & Hrun & Hiff).
  exists result, calls. split_and!.
  - done.
  - by rewrite get_best_move_calls_forget, Hrun.
  - intros move Hmove. destruct (Hsub move Hmove) as (s & l & Heq & _).
    exists s. apply Hiff. eexists move, s, _.
    split_and!; [exact Hmove|exact Heq|by left].
  - intros c (m & s & l & Hm & Hcall & Hin)%Hiff Hl move Hmove.
    destruct (Hsub m Hm) as (s' & l' & Heq & _ & Hclosed).
    rewrite Heq in Hcall. injection Hcall as _ <-.
    destruct (Hclosed c Hin Hl move Hmove) as [s'' Hin'].
    exists s''. apply Hiff. eexists m, s', _. split_and!; [exact Hm|exact Heq|exact Hin'].
  - intros c (m & s & l & Hm & Hcall & Hin)%Hiff g d.
    destruct (Hsub m Hm) as (s' & l' & Heq & Hok & _).
    rewrite Heq in Hcall. injection Hcall as _ <-.
    eapply List.Forall_forall in Hok as (Hg & H0 & Hlevel & Hsc); [|exact Hin].
    fold g in Hg, Hlevel, Hsc.
    assert (Hd : call_depth c = d) by (unfold d, plies; lia).
    assert (Hf : count_empty g < fuel) by lia.
    specialize (Hsc fuel Hf). split_and!; [done..| | |].
    + intros HO. destruct fuel as [|f]; [lia|]. simpl in Hsc.
      unfold leaf_score in Hsc. rewrite HO in Hsc. simpl in Hsc.
      rewrite <- Hd. congruence.
    + intros HX. destruct fuel as [|f]; [lia|]. simpl in Hsc.
      unfold leaf_score in Hsc. rewrite HX in Hsc. simpl in Hsc.
      rewrite <- Hd. congruence.
    + intros HO HX Hfull. destruct fuel as [|f]; [lia|]. simpl in Hsc.
      unfold leaf_score in Hsc.
      rewrite !bool_decide_eq_false_2, Hfull in Hsc by done. congruence.
Qed.

Lemma terminal_scores_witness :
  (wf board_o_to_win /\ count_empty board_o_to_win < search_fuel)
  /\ exists result calls,
       get_best_move_calls search_fuel board_o_to_win
       = Some (result, board_o_to_win, calls)
       /\ get_best_move search_fuel board_o_to_win
          = Some (result, board_o_to_win).
Proof.
  assert (Hfuel : count_empty board_o_to_win < search_fuel)
    by (vm_compute; lia).
  split; [split; [reflexivity|exact Hfuel]|].
  destruct (terminal_scores board_o_to_win search_fuel eq_refl Hfuel)
    as (result & calls & Hcalls & Hbest & _).
  exists result, calls. split; [exact Hcalls|exact Hbest].
Defined.

(** C3, as the specification words it, fails: on O O . / X X . / . . .
    the first call of the search is on the board with the first row
    completed, a terminal state one ply below the root and won by O, and
    the score it returns is 10, not 10 - 1. *)
Lemma terminal_scores_counterexample :
  exists result calls,
    get_best_move_calls search_fuel board_o_to_win
    = Some (result, board_o_to_win,
            Call 0 false (set_cell board_o_to_win 2 "O") (Int 10) :: calls)
    /\ get_best_move search_fuel board_o_to_win = Some (result, board_o_to_win)
    /\ plies board_o_to_win (set_cell board_o_to_win 2 "O") = 1
    /\ check_winner (set_cell board_o_to_win 2 "O") = Some "O"
    /\ minimax search_fuel 0 false (set_cell board_o_to_win 2 "O")
       = Some (Int 10, set_cell board_o_to_win 2 "O")
    /\ Int 10
       <> Int (10 - Z.of_nat
                      (plies board_o_to_win (set_cell board_o_to_win 2 "O"))).
Proof.
  destruct (get_best_move_calls search_fuel board_o_to_win)
    as [[[result g] [|c calls]]|] eqn:Hrun;
    try (vm_compute in Hrun; discriminate).
  exists result, calls.
  assert (Hc : (g, c) = (board_o_to_win,
                         Call 0 false (set_cell board_o_to_win 2 "O") (Int 10))).
  { vm_compute in Hrun. injection Hrun as _ <- <-. reflexivity. }
  injection Hc as -> ->.
  split_and!; [reflexivity| | | | |].
  - rewrite get_best_move_calls_forget, Hrun. reflexivity.
  - reflexivity.
  - reflexivity.
  - reflexivity.
  - vm_compute. discriminate.
Qed.

(** ** Games against the search *)

Section Games.

Variable random_choice : list nat -> nat.

Lemma make_move_false g position player g' :
  make_move g position player = (false, g') -> g' = g.
Proof.
  unfold make_move. destruct (_ && _ && _); [discriminate|congruence].
Qed.

Lemma api_make_move_invalid g position g' :
  api_make_move random_choice g position = Some (InvalidMove, g') -> g' = g.
Proof.
  unfold api_make_move.
  destruct (make_move g position "X") as [[|] g1] eqn:Hm; simpl.
  - destruct (truthy _); [discriminate|].
    destruct (is_board_full g1); [discriminate|].
    destruct (get_best_move search_fuel g1) as [[r g2]|]; [|discriminate].
    destruct (truthy _); [discriminate|].
    destruct (is_board_full _); discriminate.
  - intros [= <-]. by apply make_move_false in Hm.
Qed.

Lemma api_make_move_out_of_range g position :
  ~ (0 <= position < 9)%Z ->
  api_make_move random_choice g position = Some (InvalidMove, g).
Proof.
  intros Hn. unfold api_make_move.
  rewrite make_move_illegal; [done|]. by intros [? _].
Qed.

Lemma ai_safe_S rounds g :
  ai_safe random_choice (S rounds) g
  = forallb
      (fun p => safe_response (ai_safe random_choice rounds)
                  (api_make_move random_choice g (Z.of_nat p)))
      (seq 0 9).
Proof. reflexivity. Qed.

Lemma ai_safe_sound positions : forall rounds last g,
  ai_safe random_choice rounds g = true ->
  last = YourTurn \/ last = InvalidMove ->
  check_winner g <> Some "X" ->
  exists st g',
    play random_choice last g positions = Some (st, g') /\ never_lost st g'.
Proof.
  induction positions as [|p positions IH]; intros rounds last g Hsafe Hlast Hg.
  - exists last, g. split; [reflexivity|].
    unfold never_lost. destruct Hlast as [-> | ->]; split_and!; done.
  - destruct rounds as [|rounds]; [discriminate|].
    simpl. destruct (decide (0 <= p < 9)%Z) as [Hr|Hr].
    + pose proof Hsafe as Hall. rewrite ai_safe_S in Hall.
      rewrite forallb_forall in Hall.
      specialize (Hall (Z.to_nat p)). rewrite Z2Nat.id in Hall by lia.
      assert (Hin : In (Z.to_nat p) (seq 0 9)) by (apply in_seq; lia).
      specialize (Hall Hin). unfold safe_response in Hall.
      destruct (api_make_move random_choice g p) as [[st g']|] eqn:Hapi;
        [|discriminate].
      apply andb_true_iff in Hall as [Hx Hst].
      apply negb_true_iff, bool_decide_eq_false in Hx.
      destruct st; simpl.
      * apply api_make_move_invalid in Hapi as ->.
        apply (IH (S rounds)); auto.
      * discriminate.
      * exists ItsADraw, g'. split; [reflexivity|].
        unfold never_lost. split_and!; try done.
        intros _. by destruct (evaluate_outcome g').
      * exists AIWins, g'. split; [reflexivity|].
        unfold never_lost. split_and!; try done.
        intros _. destruct (evaluate_outcome g') as [|mark|]; try done.
        apply String.eqb_eq in Hst. by subst mark.
      * apply (IH rounds); auto.
    + rewrite api_make_move_out_of_range by done. simpl.
      apply (IH (S rounds)); auto.
Qed.

End Games.

(** Five requests deep from the empty board, every line of play of the
    human is safe for the automated player. *)
Lemma ai_safe_init random_choice : ai_safe random_choice 5 init = true.
Proof. vm_compute. reflexivity. Qed.

(** C1. From the empty board, with the automated player (O) moving second:
    the game in which both sides take the move [get_best_move] returns ends
    in a draw or a win of O; and so does every game, whatever cells the
    human asks for: no response announces a win of X, no board has a line
    of X, and a response that ends the game is a draw or a win of O. *)
Theorem ai_never_loses (random_choice : list nat -> nat) :
  (exists st final,
     self_play random_choice 5 init = Some (st, final)
     /\ (st = ItsADraw \/ st = AIWins)
     /\ (evaluate_outcome final = Draw \/ evaluate_outcome final = Win "O"))
  /\ forall positions : list Z,
       exists st final,
         play random_choice YourTurn init positions = Some (st, final)
         /\ st <> PlayerXWins
         /\ evaluate_outcome final <> Win "X"
         /\ (game_over st = true ->
             (st = ItsADraw /\ evaluate_outcome final = Draw)
             \/ (st = AIWins /\ evaluate_outcome final = Win "O")).
Proof.
  split.
  - exists ItsADraw, (mk ["X"; "X"; "O"; "O"; "O"; "X"; "X"; "O"; "X"]).
    split_and!; [vm_compute; reflexivity|by left|by left].
  - intros positions.
    destruct (ai_safe_sound random_choice positions 5 YourTurn init)
      as (st & final & Hplay & Hx & Hw & Hd & Ho);
      [apply ai_safe_init|by left|done|].
    exists st, final. split_and!; [done..| |].
    + unfold evaluate_outcome. destruct (check_winner final) as [w|].
      * congruence.
      * by destruct (is_board_full final).
    + destruct st; try done; intros _; [left|right]; auto.
Qed.

(** * Further properties of the engine and of its route *)

(** ** The winner is a mark of the board *)

Lemma combo_index_bound combo :
  In combo winning_combinations ->
  fst (fst combo) < 9 /\ snd (fst combo) < 9 /\ snd combo < 9.
Proof.
  unfold winning_combinations. simpl.
  intros H. repeat (destruct H as [<-|H]; [simpl; lia|]). destruct H.
Qed.

Lemma check_winner_line g mark :
  check_winner g = Some mark ->
  exists combo, In combo winning_combinations /\ line_won_by g combo mark.
Proof.
  unfold check_winner. intros (k & combo & Hk & Hw & _)%scan_combos_Some.
  exists combo. split; [|done].
  apply list_elem_of_In. by apply list_elem_of_lookup_2 with k.
Qed.

Lemma check_winner_truthy g :
  truthy (check_winner g) = true <-> check_winner g <> None.
Proof.
  destruct (check_winner g) as [mark|] eqn:Hc; simpl; [|split; done].
  apply check_winner_line in Hc as (combo & _ & _ & _ & _ & Hne).
  rewrite negb_true_iff, String.eqb_neq. split; done.
Qed.

(** [check_winner] never returns the empty string: its result, when it is
    not [None], is a mark that three cells of one winning line hold, so the
    route's [if winner:] is true exactly when [check_winner] found a
    line. *)
Theorem check_winner_mark (g : TicTacToe) (mark : string) :
  wf g -> check_winner g = Some mark ->
  mark <> ""
  /\ (exists i, i < 9 /\ board g !! i = Some mark)
  /\ truthy (check_winner g) = true.
Proof.
  intros Hwf Hc. pose proof Hc as (combo & Hin & H0 & _ & _ & Hne)%check_winner_line.
  split_and!.
  - done.
  - exists (fst (fst combo)). apply combo_index_bound in Hin as (Hi & _).
    split; [done|]. rewrite cell_lookup by (rewrite Hwf; lia). by rewrite H0.
  - apply check_winner_truthy. by rewrite Hc.
Qed.

Lemma check_winner_mark_witness :
  (wf board_x_row /\ check_winner board_x_row = Some "X")
  /\ "X" <> "".
Proof.
  split; [split; reflexivity|].
  exact (proj1 (check_winner_mark board_x_row "X" eq_refl eq_refl)).
Defined.

(** ** A full board and the list of moves *)

(** [is_board_full] and [get_available_moves] agree: the board is full
    exactly when no move is available, so the route's draw test and the
    search's empty loop coincide. *)
Theorem is_board_full_no_moves (g : TicTacToe) :
  wf g -> (is_board_full g = true <-> get_available_moves g = []).
Proof.
  intros Hwf. split; [by apply is_board_full_true|].
  intros Ha. destruct (is_board_full g) eqn:Hf; [done|].
  apply is_board_full_false in Hf as [i Hi]; [|done]. by rewrite Ha in Hi.
Qed.

Lemma is_board_full_no_moves_witness :
  wf board_full
  /\ (is_board_full board_full = true <-> get_available_moves board_full = []).
Proof.
  split; [reflexivity|]. exact (is_board_full_no_moves board_full eq_refl).
Defined.

(** ** Moves in sequence *)

(** A cell is taken once: after [make_move] has placed a mark other than
    the empty string, a second [make_move] on the same index fails,
    whatever its mark, and leaves the board as the first move made it. *)
Theorem make_move_twice (g : TicTacToe) (position : Z) (mark mark' : string) :
  wf g -> mark <> "" ->
  fst (make_move g position mark) = true ->
  make_move (snd (make_move g position mark)) position mark'
  = (false, snd (make_move g position mark)).
Proof.
  intros Hwf Hmark Hok.
  destruct (classic_dec_range position g) as [[Hr He]|Hn].
  - rewrite (make_move_legal g position mark) by done. simpl.
    apply make_move_illegal. intros [_ He'].
    rewrite cell_set_cell_eq in He' by (rewrite Hwf; lia). done.
  - by rewrite (make_move_illegal _ _ _ Hn) in Hok.
Qed.

Lemma make_move_twice_witness :
  (wf init /\ "X" <> "" /\ fst (make_move init 4 "X") = true)
  /\ make_move (snd (make_move init 4 "X")) 4 "O"
     = (false, snd (make_move init 4 "X")).
Proof.
  split; [split_and!; [reflexivity|discriminate|reflexivity]|].
  refine (make_move_twice init 4 "X" "O" eq_refl _ eq_refl). discriminate.
Defined.

Lemma filter_remove_one (P Q : nat -> bool) (a : nat) (l : list nat) :
  (forall x, Q x = P x && negb (Nat.eqb x a)) ->
  List.filter Q l = List.filter (fun x => negb (Nat.eqb x a)) (List.filter P l).
Proof.
  intros HQ. induction l as [|x l IH]; simpl; [done|].
  rewrite HQ. destruct (P x); simpl.
  - destruct (negb (Nat.eqb x a)); by rewrite IH.
  - done.
Qed.

(** After a successful [make_move] of a mark other than the empty string,
    [get_available_moves] is the list it was before without the index
    played, and one move shorter. *)
Theorem make_move_available (g : TicTacToe) (position : Z) (mark : string) :
  wf g -> mark <> "" ->
  fst (make_move g position mark) = true ->
  get_available_moves (snd (make_move g position mark))
  = List.filter (fun i => negb (Nat.eqb i (Z.to_nat position)))
      (get_available_moves g)
  /\ S (count_empty (snd (make_move g position mark))) = count_empty g
  /\ In (Z.to_nat position) (get_available_moves g)
  /\ ~ In (Z.to_nat position)
         (get_available_moves (snd (make_move g position mark))).
Proof.
  intros Hwf Hmark Hok.
  destruct (classic_dec_range position g) as [[Hr He]|Hn];
    [|by rewrite (make_move_illegal _ _ _ Hn) in Hok].
  rewrite (make_move_legal g position mark) by done. simpl.
  assert (Hin : In (Z.to_nat position) (get_available_moves g)).
  { apply In_available. split; [lia|done]. }
  split_and!.
  - unfold get_available_moves. apply filter_remove_one. intros x.
    destruct (Nat.eqb_spec x (Z.to_nat position)) as [->|Hne].
    + rewrite cell_set_cell_eq by (rewrite Hwf; lia).
      rewrite andb_false_r. by apply String.eqb_neq.
    + rewrite cell_set_cell_ne by done. by rewrite andb_true_r.
  - by apply count_empty_set_cell_exact.
  - done.
  - rewrite In_available. intros [_ He'].
    rewrite cell_set_cell_eq in He' by (rewrite Hwf; lia). done.
Qed.

Lemma make_move_available_witness :
  (wf board_o_to_win /\ "X" <> "" /\ fst (make_move board_o_to_win 5 "X") = true)
  /\ get_available_moves (snd (make_move board_o_to_win 5 "X"))
     = List.filter (fun i => negb (Nat.eqb i (Z.to_nat 5)))
         (get_available_moves board_o_to_win).
Proof.
  split; [split_and!; [reflexivity|discriminate|reflexivity]|].
  refine (proj1 (make_move_available board_o_to_win 5 "X" eq_refl _ eq_refl)).
  discriminate.
Defined.

(** ** The range of the scores *)

Lemma py_max_range x best lo hi :
  (lo <= x <= hi)%Z ->
  best = NegInf \/ (exists y, best = Int y /\ (lo <= y <= hi)%Z) ->
  exists z, py_max (Int x) best = Int z /\ (lo <= z <= hi)%Z.
Proof.
  intros Hx [->|(y & -> & Hy)]; unfold py_max; simpl; [eauto|].
  destruct (x <? y)%Z; eauto.
Qed.

Lemma py_min_range x best lo hi :
  (lo <= x <= hi)%Z ->
  best = PosInf \/ (exists y, best = Int y /\ (lo <= y <= hi)%Z) ->
  exists z, py_min (Int x) best = Int z /\ (lo <= z <= hi)%Z.
Proof.
  intros Hx [->|(y & -> & Hy)]; unfold py_min, score_lt; simpl; [eauto|].
  destruct (y <? x)%Z; eauto.
Qed.

Lemma fold_py_max_range (val : nat -> score) moves lo hi : forall best,
  (forall m, In m moves -> exists z, val m = Int z /\ (lo <= z <= hi)%Z) ->
  best = NegInf \/ (exists y, best = Int y /\ (lo <= y <= hi)%Z) ->
  moves <> [] ->
  exists z, fold_left (fun b m => py_max (val m) b) moves best = Int z
            /\ (lo <= z <= hi)%Z.
Proof.
  induction moves as [|a moves IH]; intros best Hval Hbest Hne; [done|].
  simpl. destruct (Hval a) as (x & Hx & Hr); [by left|]. rewrite Hx.
  destruct (py_max_range x best lo hi Hr Hbest) as (z & Hz & Hzr). rewrite Hz.
  destruct moves as [|b moves]; [simpl; eauto|].
  apply IH; [|right; eauto|done]. intros m Hm. apply Hval. by right.
Qed.

Lemma fold_py_min_range (val : nat -> score) moves lo hi : forall best,
  (forall m, In m moves -> exists z, val m = Int z /\ (lo <= z <= hi)%Z) ->
  best = PosInf \/ (exists y, best = Int y /\ (lo <= y <= hi)%Z) ->
  moves <> [] ->
  exists z, fold_left (fun b m => py_min (val m) b) moves best = Int z
            /\ (lo <= z <= hi)%Z.
Proof.
  induction moves as [|a moves IH]; intros best Hval Hbest Hne; [done|].
  simpl. destruct (Hval a) as (x & Hx & Hr); [by left|]. rewrite Hx.
  destruct (py_min_range x best lo hi Hr Hbest) as (z & Hz & Hzr). rewrite Hz.
  destruct moves as [|b moves]; [simpl; eauto|].
  apply IH; [|right; eauto|done]. intros m Hm. apply Hval. by right.
Qed.

Lemma leaf_score_cases depth g sc :
  leaf_score depth g = Some sc ->
  (check_winner g = Some "O" /\ sc = Int (10 - depth))
  \/ (check_winner g = Some "X" /\ sc = Int (depth - 10))
  \/ (check_winner g <> Some "O" /\ check_winner g <> Some "X"
      /\ is_board_full g = true /\ sc = Int 0).
Proof.
  unfold leaf_score. repeat case_bool_decide.
  - intros [= <-]. by left.
  - intros [= <-]. right. by left.
  - destruct (is_board_full g); [|done]. intros [= <-]. right. by right.
Qed.

Lemma leaf_score_None_winner depth g :
  leaf_score depth g = None ->
  check_winner g <> Some "O" /\ check_winner g <> Some "X".
Proof. unfold leaf_score. by repeat case_bool_decide. Qed.

(** One step of the recursion: below a call that does not return at once,
    the score is within the range of the scores of its children. *)
Lemma minimax_value_step_range fuel depth is_maximizing g lo hi :
  wf g -> leaf_score depth g = None ->
  (forall m, In m (get_available_moves g) ->
     exists z, minimax_value fuel (depth + 1) (negb is_maximizing)
                 (set_cell g m (if is_maximizing then "O" else "X")) = Int z
               /\ (lo <= z <= hi)%Z) ->
  exists z, minimax_value (S fuel) depth is_maximizing g = Int z
            /\ (lo <= z <= hi)%Z.
Proof.
  intros Hwf Hleaf Hch. simpl. rewrite Hleaf.
  pose proof (leaf_score_None_moves depth g Hwf Hleaf) as Hne.
  destruct is_maximizing; simpl in Hch.
  - by apply fold_py_max_range
      with (val := fun m => minimax_value fuel (depth + 1) false (set_cell g m "O"));
      [|left|].
  - by apply fold_py_min_range
      with (val := fun m => minimax_value fuel (depth + 1) true (set_cell g m "X"));
      [|left|].
Qed.

Lemma minimax_value_range fuel : forall depth is_maximizing g,
  wf g -> count_empty g < fuel ->
  (0 <= depth)%Z -> (depth + Z.of_nat (count_empty g) <= 10)%Z ->
  exists z, minimax_value fuel depth is_maximizing g = Int z
            /\ (depth - 10 <= z <= 10 - depth)%Z.
Proof.
  induction fuel as [|fuel IH]; intros depth im g Hwf Hfuel H0 Hd; [lia|].
  destruct (leaf_score depth g) as [sc|] eqn:Hleaf.
  - simpl. rewrite Hleaf.
    apply leaf_score_cases in Hleaf as [[_ ->]|[[_ ->]|(_ & _ & _ & ->)]];
      eexists; (split; [reflexivity|lia]).
  - destruct (minimax_value_step_range fuel depth im g
                (depth - 9) (9 - depth) Hwf Hleaf) as (z & Hz & Hr).
    + intros m Hm.
      assert (Hne : (if im then "O" else "X") <> "") by (by destruct im).
      pose proof (count_empty_set_cell_exact g m _ Hwf Hm Hne).
      destruct (IH (depth + 1)%Z (negb im)
                  (set_cell g m (if im then "O" else "X")))
        as (z & Hz & Hr); [by apply wf_set_cell|lia..|].
      exists z. split; [done|lia].
    + exists z. split; [done|lia].
Qed.

(** Below a call that does not return at once the range is one narrower. *)
Lemma minimax_value_range_inner fuel depth is_maximizing g :
  wf g -> count_empty g < fuel -> leaf_score depth g = None ->
  (0 <= depth)%Z -> (depth + Z.of_nat (count_empty g) <= 10)%Z ->
  exists z, minimax_value fuel depth is_maximizing g = Int z
            /\ (depth - 9 <= z <= 9 - depth)%Z.
Proof.
  intros Hwf Hfuel Hleaf H0 Hd. destruct fuel as [|fuel]; [lia|].
  apply minimax_value_step_range; [done..|].
  intros m Hm.
  assert (Hne : (if is_maximizing then "O" else "X") <> "")
    by (by destruct is_maximizing).
  pose proof (count_empty_set_cell_exact g m _ Hwf Hm Hne).
  destruct (minimax_value_range fuel (depth + 1)%Z (negb is_maximizing)
              (set_cell g m (if is_maximizing then "O" else "X")))
    as (z & Hz & Hr); [by apply wf_set_cell|lia..|].
  exists z. split; [done|lia].
Qed.

Lemma minimax_value_extreme fuel depth is_maximizing g :
  wf g -> count_empty g < fuel ->
  (0 <= depth)%Z -> (depth + Z.of_nat (count_empty g) <= 9)%Z ->
  exists z,
    minimax_value fuel depth is_maximizing g = Int z
    /\ (depth - 10 <= z <= 10 - depth)%Z
    /\ (z = (10 - depth)%Z <-> check_winner g = Some "O")
    /\ (z = (depth - 10)%Z <-> check_winner g = Some "X").
Proof.
  intros Hwf Hfuel H0 Hd.
  destruct (leaf_score depth g) as [sc|] eqn:Hleaf.
  - destruct fuel as [|fuel]; [lia|]. simpl. rewrite Hleaf.
    apply leaf_score_cases in Hleaf
      as [[HO ->]|[[HX ->]|(HO & HX & _ & ->)]].
    + exists (10 - depth)%Z. rewrite HO. split_and!; [done|lia|lia|done|].
      split; [intros; exfalso; lia|done].
    + exists (depth - 10)%Z. rewrite HX. split_and!; [done|lia|lia| |done].
      split; [intros; exfalso; lia|done].
    + exists 0%Z. split_and!; [done|lia|lia|split|split];
        first [intros; exfalso; lia|done].
  - destruct (minimax_value_range_inner fuel depth is_maximizing g)
      as (z & -> & Hr); [done|done|done|done|lia|].
    apply leaf_score_None_winner in Hleaf as [HO HX].
    exists z. split_and!; [done|lia|lia|split|split];
      first [intros; exfalso; lia|done].
Qed.

(** The score of [minimax] called with [depth] lies between [depth - 10]
    and [10 - depth]; it is [10 - depth] exactly when O has already won on
    the board of the call and [depth - 10] exactly when X has.  The
    hypothesis on [depth] holds at every call of a search: [depth] plus the
    number of empty cells is at most 8 there. *)
Theorem minimax_score_range (g : TicTacToe) (depth : Z)
    (is_maximizing : bool) (fuel : nat) :
  wf g -> count_empty g < fuel ->
  (0 <= depth)%Z -> (depth + Z.of_nat (count_empty g) <= 9)%Z ->
  exists z,
    minimax fuel depth is_maximizing g = Some (Int z, g)
    /\ (depth - 10 <= z <= 10 - depth)%Z
    /\ (z = (10 - depth)%Z <-> check_winner g = Some "O")
    /\ (z = (depth - 10)%Z <-> check_winner g = Some "X").
Proof.
  intros Hwf Hfuel H0 Hd. rewrite minimax_eq_value by done.
  destruct (minimax_value_extreme fuel depth is_maximizing g Hwf Hfuel H0 Hd)
    as (z & -> & H). by exists z.
Qed.

Lemma minimax_score_range_witness :
  (wf board_o_row /\ count_empty board_o_row < search_fuel
   /\ (0 <= 0)%Z /\ (0 + Z.of_nat (count_empty board_o_row) <= 9)%Z)
  /\ exists z,
       minimax search_fuel 0 false board_o_row = Some (Int z, board_o_row)
       /\ (0 - 10 <= z <= 10 - 0)%Z
       /\ (z = (10 - 0)%Z <-> check_winner board_o_row = Some "O")
       /\ (z = (0 - 10)%Z <-> check_winner board_o_row = Some "X").
Proof.
  split; [split_and!; first [reflexivity|lia|vm_compute; lia|vm_compute; discriminate]|].
  refine (minimax_score_range board_o_row 0 false search_fuel eq_refl _ _ _);
    first [lia|vm_compute; lia|vm_compute; discriminate].
Defined.

(** ** A win in one move is taken *)

Lemma candidate_value fuel g m :
  wf g -> count_empty g < fuel -> In m (get_available_moves g) ->
  exists z,
    minimax_value fuel 0 false (set_cell g m "O") = Int z
    /\ (z <= 10)%Z
    /\ (z = 10%Z <-> check_winner (set_cell g m "O") = Some "O").
Proof.
  intros Hwf Hfuel Hm.
  pose proof (count_empty_set_cell_exact g m "O" Hwf Hm ltac:(done)).
  pose proof (count_empty_le_9 g).
  destruct (minimax_value_extreme fuel 0 false (set_cell g m "O"))
    as (z & Hz & Hr & HO & _); [by apply wf_set_cell|lia..|].
  exists z. split_and!; [done|lia|done].
Qed.

Lemma get_best_move_wins fuel g :
  wf g -> count_empty g < fuel ->
  (exists m, In m (get_available_moves g)
             /\ check_winner (set_cell g m "O") = Some "O") ->
  exists move,
    get_best_move fuel g = Some (Move move, g)
    /\ In move (get_available_moves g)
    /\ check_winner (set_cell g move "O") = Some "O"
    /\ forall j, In j (get_available_moves g) -> j < move ->
         check_winner (set_cell g j "O") <> Some "O".
Proof.
  intros Hwf Hfuel (m & Hm & Hwin).
  assert (Hne : get_available_moves g <> []) by (intros E; by rewrite E in Hm).
  destruct (get_best_move_choice fuel g Hwf Hfuel Hne)
    as (l1 & m' & l2 & Hs & Hr & H1 & H2).
  assert (Hin' : In m' (get_available_moves g)).
  { rewrite Hs. apply in_or_app. right. by left. }
  destruct (candidate_value fuel g m' Hwf Hfuel Hin') as (z' & Hz' & Hle' & HO').
  destruct (candidate_value fuel g m Hwf Hfuel Hm) as (z & Hz & _ & HO).
  apply HO in Hwin. subst z.
  pose proof (available_sorted g) as Hsorted. rewrite Hs in Hsorted.
  apply sorted_split in Hsorted as [Hlt Hgt].
  assert (Hz10 : z' = 10%Z).
  { pose proof Hm as Hm2. rewrite Hs in Hm2.
    apply in_app_or in Hm2 as [Hm2|[<-|Hm2]].
    - specialize (H1 m Hm2). rewrite Hz', Hz in H1. simpl in H1.
      apply Z.ltb_lt in H1. lia.
    - congruence.
    - specialize (H2 m Hm2). rewrite Hz', Hz in H2. simpl in H2.
      apply Z.ltb_ge in H2. lia. }
  exists m'. split_and!; [done|done|by apply HO'|].
  intros j Hj Hjm Hjwin.
  destruct (candidate_value fuel g j Hwf Hfuel Hj) as (zj & Hzj & _ & HOj).
  apply HOj in Hjwin. subst zj.
  rewrite Hs in Hj. apply in_app_or in Hj as [Hj|[<-|Hj]].
  - specialize (H1 j Hj). rewrite Hz', Hzj in H1. simpl in H1.
    apply Z.ltb_lt in H1. lia.
  - lia.
  - specialize (Hgt j Hj). lia.
Qed.

(** When some available cell completes a line of O, [get_best_move]
    returns such a cell, the one of lowest index: the automated player
    never passes over a win in one move. *)
Theorem get_best_move_immediate_win (g : TicTacToe) (fuel : nat)
    (winning : nat) :
  wf g -> count_empty g < fuel ->
  In winning (get_available_moves g) ->
  check_winner (set_cell g winning "O") = Some "O" ->
  exists move,
    get_best_move fuel g = Some (Move move, g)
    /\ move <= winning
    /\ In move (get_available_moves g)
    /\ check_winner (set_cell g move "O") = Some "O"
    /\ forall j, In j (get_available_moves g) -> j < move ->
         check_winner (set_cell g j "O") <> Some "O".
Proof.
  intros Hwf Hfuel Hin Hwin.
  destruct (get_best_move_wins fuel g Hwf Hfuel) as (m & Hr & Hm & Hw & Hlow);
    [by exists winning|].
  exists m. split_and!; [done| |done..].
  destruct (le_lt_dec m winning) as [|Hlt]; [done|].
  by destruct (Hlow winning Hin Hlt).
Qed.

Lemma get_best_move_immediate_win_witness :
  (wf board_mid /\ count_empty board_mid < search_fuel
   /\ In 7 (get_available_moves board_mid)
   /\ check_winner (set_cell board_mid 7 "O") = Some "O")
  /\ exists move,
       get_best_move search_fuel board_mid = Some (Move move, board_mid)
       /\ move <= 7
       /\ In move (get_available_moves board_mid)
       /\ check_winner (set_cell board_mid move "O") = Some "O"
       /\ forall j, In j (get_available_moves board_mid) -> j < move ->
            check_winner (set_cell board_mid j "O") <> Some "O".
Proof.
  split; [split_and!; [reflexivity|vm_compute; lia|vm_compute; tauto|reflexivity]|].
  refine (get_best_move_immediate_win board_mid search_fuel 7 eq_refl _ _ eq_refl).
  - vm_compute; lia.
  - vm_compute; tauto.
Defined.

(** ** The responses of the route *)

Section RouteProperties.

Variable random_choice : list nat -> nat.

(** A request is legal when [make_move] accepts it. *)
Lemma make_move_X_legal g position :
  wf g ->
  (fst (make_move g position "X") = true
   <-> (0 <= position < 9)%Z /\ board g !! Z.to_nat position = Some "").
Proof.
  intros Hwf. split.
  - intros Hok. destruct (classic_dec_range position g) as [[Hr He]|Hn].
    + split; [done|]. apply cell_empty_lookup; [done|lia|done].
    + by rewrite (make_move_illegal _ _ _ Hn) in Hok.
  - intros [Hr Hl]. rewrite make_move_legal; [done..|].
    apply cell_empty_lookup; [done|lia|done].
Qed.

(** The reply of the search on a board that is not full. *)
Lemma search_reply g :
  wf g -> is_board_full g = false ->
  exists m,
    get_best_move search_fuel g = Some (Move m, g)
    /\ In m (get_available_moves g)
    /\ make_move g (Z.of_nat m) "O" = (true, set_cell g m "O").
Proof.
  intros Hwf Hfull.
  assert (Hfuel : count_empty g < search_fuel).
  { pose proof (count_empty_le_9 g). unfold search_fuel. lia. }
  destruct (is_board_full_false g Hwf Hfull) as [i Hi].
  assert (Hne : get_available_moves g <> []) by (intros E; by rewrite E in Hi).
  destruct (get_best_move_choice search_fuel g Hwf Hfuel Hne)
    as (l1 & m & l2 & Hs & Hr & _).
  assert (Hin : In m (get_available_moves g)).
  { rewrite Hs. apply in_or_app. right. by left. }
  exists m. split_and!; [done..|].
  pose proof Hin as [Hlt He]%In_available.
  rewrite make_move_legal; rewrite ?Nat2Z.id; [done|lia|done].
Qed.

(** The four ways through the route for a request that [make_move]
    accepts. *)
Lemma api_make_move_cases g position :
  wf g -> (0 <= position < 9)%Z -> cell g (Z.to_nat position) = "" ->
  let g1 := set_cell g (Z.to_nat position) "X" in
  (truthy (check_winner g1) = true
   /\ api_make_move random_choice g position = Some (PlayerXWins, g1))
  \/ (truthy (check_winner g1) = false /\ is_board_full g1 = true
      /\ api_make_move random_choice g position = Some (ItsADraw, g1))
  \/ (truthy (check_winner g1) = false /\ is_board_full g1 = false
      /\ exists m,
           get_best_move search_fuel g1 = Some (Move m, g1)
           /\ In m (get_available_moves g1)
           /\ api_make_move random_choice g position
              = Some (if truthy (check_winner (set_cell g1 m "O")) then AIWins
                      else if is_board_full (set_cell g1 m "O") then ItsADraw
                      else YourTurn,
                      set_cell g1 m "O")).
Proof.
  intros Hwf Hr He g1. unfold api_make_move.
  rewrite make_move_legal by done. cbv beta iota zeta delta [negb]. fold g1.
  destruct (truthy (check_winner g1)) eqn:Ht; [by left|].
  destruct (is_board_full g1) eqn:Hf; [right; by left|].
  right. right. split_and!; [done..|].
  destruct (search_reply g1) as (m & Hm & Hin & Hmv);
    [by apply wf_set_cell|done|].
  exists m. split_and!; [done..|]. rewrite Hm, Hmv.
  cbv beta iota zeta delta [snd].
  destruct (truthy (check_winner (set_cell g1 m "O"))); [done|].
  by destruct (is_board_full (set_cell g1 m "O")).
Qed.

(** A request is answered 'Invalid move' exactly when its index is out of
    range or its cell is taken, and then the board is left as it was and
    the automated player does not move; on a full board every request is
    answered so. *)
Theorem api_make_move_rejects (g : TicTacToe) (position : Z) :
  wf g ->
  let legal := (0 <= position < 9)%Z
               /\ board g !! Z.to_nat position = Some "" in
  ((exists g', api_make_move random_choice g position = Some (InvalidMove, g'))
   <-> ~ legal)
  /\ (~ legal -> api_make_move random_choice g position = Some (InvalidMove, g))
  /\ (is_board_full g = true -> ~ legal).
Proof.
  intros Hwf legal.
  assert (Hleg : legal <-> (0 <= position < 9)%Z /\ cell g (Z.to_nat position) = "").
  { unfold legal. split; intros [Hr He]; (split; [done|]);
      apply (cell_empty_lookup g _ Hwf); try done; lia. }
  assert (Hrej : ~ legal ->
                 api_make_move random_choice g position = Some (InvalidMove, g)).
  { intros Hn. unfold api_make_move. rewrite make_move_illegal; [done|].
    intros H. by apply Hn, Hleg. }
  split_and!.
  - split; [|intros Hn; exists g; by apply Hrej].
    intros [g' Hapi] [Hr He]%Hleg.
    destruct (api_make_move_cases g position Hwf Hr He)
      as [[_ H]|[(_ & _ & H)|(_ & _ & m & _ & _ & H)]];
      rewrite H in Hapi; try discriminate.
    destruct (truthy _); [discriminate|].
    destruct (is_board_full _); discriminate.
  - done.
  - intros Hfull [Hr Hl]. apply is_board_full_iff in Hfull. apply Hfull.
    apply list_elem_of_In. by apply list_elem_of_lookup_2 with (Z.to_nat position).
Qed.

(** A response 'Your turn' means two marks were placed and nothing else
    changed: X on the cell asked for, which was empty, and O on another
    cell that was empty, the one [get_best_move] chose. *)
Theorem api_make_move_your_turn (g g' : TicTacToe) (position : Z) :
  wf g ->
  api_make_move random_choice g position = Some (YourTurn, g') ->
  exists m,
    let p := Z.to_nat position in
    (0 <= position < 9)%Z
    /\ board g !! p = Some "" /\ board g !! m = Some "" /\ m <> p
    /\ get_best_move search_fuel (set_cell g p "X")
       = Some (Move m, set_cell g p "X")
    /\ g' = set_cell (set_cell g p "X") m "O"
    /\ board g' !! p = Some "X" /\ board g' !! m = Some "O"
    /\ (forall j, j <> p -> j <> m -> board g' !! j = board g !! j)
    /\ count_empty g = S (S (count_empty g'))
    /\ evaluate_outcome g' = InProgress.
Proof.
  intros Hwf Hapi.
  destruct (classic_dec_range position g) as [[Hr He]|Hn].
  2:{ unfold api_make_move in Hapi.
      by rewrite make_move_illegal in Hapi by done. }
  assert (Hp : Z.to_nat position < 9) by lia.
  destruct (api_make_move_cases g position Hwf Hr He)
    as [[_ H]|[(_ & _ & H)|(_ & _ & m & Hbest & Hin & H)]];
    rewrite H in Hapi; try discriminate.
  set (g1 := set_cell g (Z.to_nat position) "X") in *.
  assert (Hwf1 : wf g1) by (by apply wf_set_cell).
  destruct (truthy (check_winner (set_cell g1 m "O"))) eqn:Ht; [discriminate|].
  destruct (is_board_full (set_cell g1 m "O")) eqn:Hf; [discriminate|].
  injection Hapi as <-.
  pose proof Hin as [Hm He1]%In_available.
  assert (Hmp : m <> Z.to_nat position).
  { intros ->. unfold g1 in He1.
    rewrite cell_set_cell_eq in He1 by (rewrite Hwf; lia). done. }
  assert (Hem : cell g m = "").
  { unfold g1 in He1. by rewrite cell_set_cell_ne in He1. }
  exists m. simpl.
  split; [done|]. split; [by apply cell_empty_lookup|].
  split; [by apply cell_empty_lookup|]. split; [done|].
  split; [done|]. split; [done|].
  split.
  { rewrite list_lookup_insert_ne by done.
    apply list_lookup_insert_eq. rewrite Hwf. lia. }
  split.
  { apply list_lookup_insert_eq. rewrite length_insert, Hwf. lia. }
  split.
  { intros j Hj1 Hj2. by rewrite !list_lookup_insert_ne. }
  split.
  { assert (Hg : In (Z.to_nat position) (get_available_moves g))
      by (apply In_available; split; [lia|done]).
    pose proof (count_empty_set_cell_exact g _ "X" Hwf Hg ltac:(done)) as H1.
    pose proof (count_empty_set_cell_exact g1 m "O" Hwf1 Hin ltac:(done)) as H2.
    fold g1 in H1. lia. }
  unfold evaluate_outcome.
  destruct (check_winner (set_cell g1 m "O")) as [w|] eqn:Hc.
  - assert (truthy (check_winner (set_cell g1 m "O")) = true); [|congruence].
    apply check_winner_truthy. by rewrite Hc.
  - by rewrite Hf.
Qed.

End RouteProperties.

Lemma api_make_move_rejects_witness :
  wf board_x_corner
  /\ api_make_move (fun _ => 0) board_x_corner 0
     = Some (InvalidMove, board_x_corner).
Proof.
  split; [reflexivity|].
  refine (proj1 (proj2 (api_make_move_rejects (fun _ => 0) board_x_corner 0
                          eq_refl)) _).
  intros [_ H]. discriminate H.
Defined.

Lemma api_make_move_your_turn_witness :
  (wf board_open
   /\ api_make_move (fun _ => 0) board_open 3
      = Some (YourTurn, mk ["X"; "O"; "X"; "X"; "O"; ""; "O"; "X"; ""]))
  /\ exists m,
       let p := Z.to_nat 3 in
       (0 <= 3 < 9)%Z
       /\ board board_open !! p = Some "" /\ board board_open !! m = Some ""
       /\ m <> p
       /\ get_best_move search_fuel (set_cell board_open p "X")
          = Some (Move m, set_cell board_open p "X")
       /\ mk ["X"; "O"; "X"; "X"; "O"; ""; "O"; "X"; ""]
          = set_cell (set_cell board_open p "X") m "O"
       /\ board (mk ["X"; "O"; "X"; "X"; "O"; ""; "O"; "X"; ""]) !! p = Some "X"
       /\ board (mk ["X"; "O"; "X"; "X"; "O"; ""; "O"; "X"; ""]) !! m = Some "O"
       /\ (forall j, j <> p -> j <> m ->
             board (mk ["X"; "O"; "X"; "X"; "O"; ""; "O"; "X"; ""]) !! j
             = board board_open !! j)
       /\ count_empty board_open
          = S (S (count_empty (mk ["X"; "O"; "X"; "X"; "O"; ""; "O"; "X"; ""])))
       /\ evaluate_outcome (mk ["X"; "O"; "X"; "X"; "O"; ""; "O"; "X"; ""])
          = InProgress.
Proof.
  split; [split; [reflexivity|vm_compute; reflexivity]|].
  refine (api_make_move_your_turn (fun _ => 0) board_open _ 3 eq_refl _).
  vm_compute; reflexivity.
Defined.

(** ** Requests after the game is over, wins of the automated player,
       invariants of a game *)

Section GameProperties.

Variable random_choice : list nat -> nat.

(** A won line stays won when a mark is placed on an empty cell. *)
Lemma combo_wins_set_cell g combo p v :
  combo_wins g combo = true -> cell g p = "" ->
  combo_wins (set_cell g p v) combo = true.
Proof.
  intros (mark & H0 & H1 & H2 & Hne)%combo_wins_spec He.
  apply combo_wins_spec. exists mark. unfold line_won_by.
  assert (Hp : forall i, cell g i = mark -> p <> i) by (intros i Hi ->; congruence).
  rewrite !cell_set_cell_ne by auto. done.
Qed.

Lemma check_winner_persist g p v :
  check_winner g <> None -> cell g p = "" ->
  check_winner (set_cell g p v) <> None.
Proof.
  intros Hc He Hn. destruct (check_winner g) as [w|] eqn:Hw; [|done].
  apply check_winner_line in Hw as (combo & Hin & Hwon).
  assert (Hcw : combo_wins g combo = true) by (apply combo_wins_spec; eauto).
  apply (combo_wins_set_cell g combo p v) in Hcw; [|done].
  apply combo_wins_spec in Hcw as [mark Hm].
  unfold check_winner in Hn. rewrite scan_combos_None in Hn.
  by destruct (Hn combo mark Hin).
Qed.

(** The route does not look at the outcome before it accepts a request:
    on a board that already has a won line, of X or of O, a request for an
    empty cell is accepted, X is placed, the automated player does not
    reply, and the response is 'Player X wins!' whoever holds the line. *)
Theorem api_make_move_after_win (g : TicTacToe) (position : Z)
    (winner : string) :
  wf g -> check_winner g = Some winner ->
  (0 <= position < 9)%Z -> board g !! Z.to_nat position = Some "" ->
  api_make_move random_choice g position
  = Some (PlayerXWins, set_cell g (Z.to_nat position) "X")
  /\ check_winner (set_cell g (Z.to_nat position) "X") <> None.
Proof.
  intros Hwf Hc Hr Hl.
  assert (He : cell g (Z.to_nat position) = "").
  { apply cell_empty_lookup; [done|lia|done]. }
  assert (Hp : check_winner (set_cell g (Z.to_nat position) "X") <> None).
  { apply check_winner_persist; [by rewrite Hc|done]. }
  split; [|done].
  destruct (api_make_move_cases random_choice g position Hwf Hr He)
    as [[_ H]|[(Ht & _)|(Ht & _)]]; [done|..];
    apply check_winner_truthy in Hp; congruence.
Qed.

(** When, after the human's mark, some empty cell completes a line of O,
    the automated player takes such a cell and the response is
    'AI (O) wins!'. *)
Theorem api_make_move_ai_wins (g : TicTacToe) (position : Z) (winning : nat) :
  wf g ->
  (0 <= position < 9)%Z -> board g !! Z.to_nat position = Some "" ->
  let g1 := set_cell g (Z.to_nat position) "X" in
  check_winner g1 = None ->
  In winning (get_available_moves g1) ->
  check_winner (set_cell g1 winning "O") = Some "O" ->
  exists m,
    api_make_move random_choice g position = Some (AIWins, set_cell g1 m "O")
    /\ m <= winning
    /\ check_winner (set_cell g1 m "O") = Some "O".
Proof.
  intros Hwf Hr Hl g1 Hc Hin Hwin.
  assert (He : cell g (Z.to_nat position) = "").
  { apply cell_empty_lookup; [done|lia|done]. }
  assert (Hwf1 : wf g1) by (by apply wf_set_cell).
  assert (Hfuel : count_empty g1 < search_fuel).
  { pose proof (count_empty_le_9 g1). unfold search_fuel. lia. }
  destruct (get_best_move_wins search_fuel g1 Hwf1 Hfuel)
    as (m & Hbest & Hm & Hw & Hlow); [by exists winning|].
  exists m.
  assert (Hle : m <= winning).
  { destruct (le_lt_dec m winning) as [|Hlt]; [done|].
    by destruct (Hlow winning Hin Hlt). }
  split_and!; [|done..].
  destruct (api_make_move_cases random_choice g position Hwf Hr He)
    as [[Ht _]|[(_ & Hf & _)|(_ & _ & m0 & Hbest0 & _ & H)]].
  - fold g1 in Ht. by rewrite Hc in Ht.
  - fold g1 in Hf. apply is_board_full_true in Hf; [|done].
    by rewrite Hf in Hin.
  - fold g1 in Hbest0, H. rewrite Hbest in Hbest0. injection Hbest0 as <-.
    rewrite H, Hw. reflexivity.
Qed.

(** *** Nine cells, each empty, X or O *)

Lemma valid_board_set_cell g i v :
  valid_board g -> is_mark v -> valid_board (set_cell g i v).
Proof.
  intros [Hwf Hall] Hv. split; [by apply wf_set_cell|].
  simpl. by apply Forall_insert.
Qed.

Lemma api_make_move_valid g position :
  valid_board g ->
  exists st g',
    api_make_move random_choice g position = Some (st, g')
    /\ valid_board g' /\ current_player g' = current_player g.
Proof.
  intros Hv. pose proof Hv as [Hwf _].
  destruct (classic_dec_range position g) as [[Hr He]|Hn].
  - assert (H1 : valid_board (set_cell g (Z.to_nat position) "X")).
    { apply valid_board_set_cell; [done|]. right. by left. }
    destruct (api_make_move_cases random_choice g position Hwf Hr He)
      as [[_ H]|[(_ & _ & H)|(_ & _ & m & _ & _ & H)]]; rewrite H.
    + eauto.
    + eauto.
    + eexists _, _. split_and!; [done| |done].
      apply valid_board_set_cell; [done|]. right. by right.
  - exists InvalidMove, g. split_and!; [|done..].
    unfold api_make_move. by rewrite make_move_illegal.
Qed.

(** Requests whose position is an integer, served one after the other
    whether or not an earlier response ended the game: each gets a
    response, and the board each leaves has nine cells, each empty, X or
    O, the invariant the test suite checks on [/api/board];
    [current_player] is never changed.  The same holds of a game, the
    requests up to the first response with [game_over]. *)
Theorem play_valid_board (positions : list Z) (last : status)
    (g : TicTacToe) :
  valid_board g ->
  (exists responses,
     serve random_choice g positions = Some responses
     /\ length responses = length positions
     /\ Forall (fun r => valid_board (snd r)
                         /\ current_player (snd r) = current_player g)
          responses)
  /\ exists st g',
       play random_choice last g positions = Some (st, g')
       /\ valid_board g' /\ current_player g' = current_player g.
Proof.
  intros Hv. split.
  - clear last. revert g Hv.
    induction positions as [|p positions IH]; intros g Hv; simpl.
    + exists []. split_and!; [done..|constructor].
    + destruct (api_make_move_valid g p Hv) as (st & g' & -> & Hv' & Hcp).
      destruct (IH g' Hv') as (responses & -> & Hlen & Hall).
      exists ((st, g') :: responses). split_and!; [done|simpl; by rewrite Hlen|].
      constructor; [done|].
      eapply Forall_impl; [exact Hall|]. intros r [? ?]. split; [done|congruence].
  - revert last g Hv.
    induction positions as [|p positions IH]; intros last g Hv.
    + exists last, g. by split_and!.
    + simpl. destruct (api_make_move_valid g p Hv) as (st & g' & -> & Hv' & Hcp).
      destruct (game_over st); [by eauto|].
      destruct (IH st g' Hv') as (st' & g'' & -> & Hv'' & Hcp').
      exists st', g''. split_and!; [done..|congruence].
Qed.

End GameProperties.

Lemma valid_board_init : valid_board init.
Proof.
  split; [reflexivity|]. simpl. repeat constructor; by left.
Qed.

Lemma api_make_move_after_win_witness :
  (wf board_o_row /\ check_winner board_o_row = Some "O"
   /\ (0 <= 7 < 9)%Z /\ board board_o_row !! Z.to_nat 7 = Some "")
  /\ api_make_move (fun _ => 0) board_o_row 7
     = Some (PlayerXWins, set_cell board_o_row (Z.to_nat 7) "X").
Proof.
  split; [split; [reflexivity|split; [reflexivity|split; [lia|reflexivity]]]|].
  refine (proj1 (api_make_move_after_win (fun _ => 0) board_o_row 7 "O"
                   eq_refl eq_refl _ eq_refl)).
  lia.
Defined.

Lemma api_make_move_ai_wins_witness :
  (wf board_mid /\ (0 <= 5 < 9)%Z /\ board board_mid !! Z.to_nat 5 = Some ""
   /\ check_winner (set_cell board_mid (Z.to_nat 5) "X") = None
   /\ In 7 (get_available_moves (set_cell board_mid (Z.to_nat 5) "X"))
   /\ check_winner (set_cell (set_cell board_mid (Z.to_nat 5) "X") 7 "O")
      = Some "O")
  /\ exists m,
       api_make_move (fun _ => 0) board_mid 5
       = Some (AIWins, set_cell (set_cell board_mid (Z.to_nat 5) "X") m "O")
       /\ m <= 7
       /\ check_winner (set_cell (set_cell board_mid (Z.to_nat 5) "X") m "O")
          = Some "O".
Proof.
  split.
  - split; [reflexivity|]. split; [lia|]. split; [reflexivity|].
    split; [reflexivity|]. split; [vm_compute; tauto|reflexivity].
  - refine (api_make_move_ai_wins (fun _ => 0) board_mid 5 7
              eq_refl _ eq_refl eq_refl _ eq_refl).
    + lia.
    + vm_compute; tauto.
Defined.

Lemma play_valid_board_witness :
  valid_board init
  /\ (exists responses,
        serve (fun _ => 0) init [4%Z; 4%Z; 0%Z] = Some responses
        /\ length responses = length [4%Z; 4%Z; 0%Z]
        /\ Forall (fun r => valid_board (snd r)
                            /\ current_player (snd r) = current_player init)
             responses)
  /\ exists st g',
       play (fun _ => 0) YourTurn init [4%Z; 4%Z; 0%Z] = Some (st, g')
       /\ valid_board g' /\ current_player g' = current_player init.
Proof.
  split; [exact valid_board_init|].
  exact (play_valid_board (fun _ => 0) [4%Z; 4%Z; 0%Z] YourTurn init
           valid_board_init).
Defined.

(** ** As many O as X *)

Lemma count_mark_set_cell g i v mark :
  board g !! i = Some "" -> mark <> "" ->
  count_mark mark (set_cell g i v)
  = count_mark mark g + (if String.eqb mark v then 1 else 0).
Proof.
  intros Hl Hmark. unfold count_mark. simpl.
  rewrite insert_take_drop by (by apply lookup_lt_Some in Hl).
  rewrite <- (take_drop_middle (board g) i "" Hl) at 3.
  rewrite !List.filter_app, !length_app. simpl.
  replace (String.eqb mark "") with false by (symmetry; by apply String.eqb_neq).
  destruct (String.eqb mark v); simpl; lia.
Qed.

Section Balance.

Variable random_choice : list nat -> nat.

Lemma api_make_move_wf g position st g' :
  wf g -> api_make_move random_choice g position = Some (st, g') -> wf g'.
Proof.
  intros Hwf Hapi.
  destruct (classic_dec_range position g) as [[Hr He]|Hn].
  - destruct (api_make_move_cases random_choice g position Hwf Hr He)
      as [[_ H]|[(_ & _ & H)|(_ & _ & m & _ & _ & H)]];
      rewrite H in Hapi; injection Hapi as <- <-;
      repeat apply wf_set_cell; done.
  - unfold api_make_move in Hapi.
    rewrite make_move_illegal in Hapi by done. by injection Hapi as <- <-.
Qed.

(** What one request adds to the board. *)
Lemma api_make_move_counts g position st g' :
  wf g -> api_make_move random_choice g position = Some (st, g') ->
  match st with
  | InvalidMove => g' = g
  | PlayerXWins =>
      count_mark "X" g' = S (count_mark "X" g)
      /\ count_mark "O" g' = count_mark "O" g
  | AIWins | YourTurn =>
      count_mark "X" g' = S (count_mark "X" g)
      /\ count_mark "O" g' = S (count_mark "O" g)
  | ItsADraw =>
      count_mark "X" g' = S (count_mark "X" g)
      /\ (count_mark "O" g' = count_mark "O" g
          \/ count_mark "O" g' = S (count_mark "O" g))
  end.
Proof.
  intros Hwf Hapi.
  destruct (classic_dec_range position g) as [[Hr He]|Hn].
  2:{ unfold api_make_move in Hapi.
      rewrite make_move_illegal in Hapi by done. by injection Hapi as <- <-. }
  assert (Hl : board g !! Z.to_nat position = Some "").
  { apply cell_empty_lookup; [done|lia|done]. }
  set (g1 := set_cell g (Z.to_nat position) "X") in *.
  assert (HX1 : count_mark "X" g1 = S (count_mark "X" g)).
  { unfold g1. rewrite count_mark_set_cell by done. simpl. lia. }
  assert (HO1 : count_mark "O" g1 = count_mark "O" g).
  { unfold g1. rewrite count_mark_set_cell by done. simpl. lia. }
  destruct (api_make_move_cases random_choice g position Hwf Hr He)
    as [[_ H]|[(_ & _ & H)|(_ & _ & m & _ & Hin & H)]];
    fold g1 in H; rewrite H in Hapi.
  - injection Hapi as <- <-. done.
  - injection Hapi as <- <-. split; [done|by left].
  - fold g1 in Hin. apply In_available in Hin as [Hm Hem].
    assert (Hlm : board g1 !! m = Some "").
    { apply cell_empty_lookup; [by apply wf_set_cell|done..]. }
    assert (HX3 : count_mark "X" (set_cell g1 m "O") = S (count_mark "X" g)).
    { rewrite count_mark_set_cell by done. simpl. lia. }
    assert (HO3 : count_mark "O" (set_cell g1 m "O") = S (count_mark "O" g)).
    { rewrite count_mark_set_cell by done. simpl. lia. }
    destruct (truthy _); [by injection Hapi as <- <-|].
    destruct (is_board_full _); injection Hapi as <- <-; [|done].
    split; [done|by right].
Qed.

(** In a game that starts with as many X as O on the board (the empty
    board, for one), the board holds as many X as O whenever the response
    is 'Your turn', 'Invalid move' or 'AI (O) wins!', and one X more when
    it is 'Player X wins!': the two sides alternate, the human first. *)
Theorem play_balanced (positions : list Z) (last : status)
    (g g' : TicTacToe) (st : status) :
  wf g -> count_mark "X" g = count_mark "O" g ->
  last = YourTurn \/ last = InvalidMove ->
  play random_choice last g positions = Some (st, g') ->
  match st with
  | YourTurn | InvalidMove | AIWins => count_mark "X" g' = count_mark "O" g'
  | PlayerXWins => count_mark "X" g' = S (count_mark "O" g')
  | ItsADraw =>
      count_mark "X" g' = count_mark "O" g'
      \/ count_mark "X" g' = S (count_mark "O" g')
  end.
Proof.
  revert last g. induction positions as [|p positions IH];
    intros last g Hwf Hbal Hlast Hplay.
  - simpl in Hplay. injection Hplay as <- <-. by destruct Hlast as [-> | ->].
  - simpl in Hplay.
    destruct (api_make_move random_choice g p) as [[st1 g1]|] eqn:Hapi;
      [|discriminate].
    pose proof (api_make_move_counts g p st1 g1 Hwf Hapi) as Hc.
    pose proof (api_make_move_wf g p st1 g1 Hwf Hapi) as Hwf1.
    destruct st1; simpl in Hplay.
    + subst g1. apply (IH InvalidMove g); auto.
    + injection Hplay as <- <-. lia.
    + injection Hplay as <- <-. lia.
    + injection Hplay as <- <-. lia.
    + apply (IH YourTurn g1); auto. lia.
Qed.

End Balance.

Lemma play_balanced_witness :
  (wf board_even /\ count_mark "X" board_even = count_mark "O" board_even
   /\ (YourTurn = YourTurn \/ YourTurn = InvalidMove)
   /\ play (fun _ => 0) YourTurn board_even [5%Z]
      = Some (YourTurn, mk ["X"; "O"; "X"; "O"; ""; "X"; ""; ""; "O"]))
  /\ count_mark "X" (mk ["X"; "O"; "X"; "O"; ""; "X"; ""; ""; "O"])
     = count_mark "O" (mk ["X"; "O"; "X"; "O"; ""; "X"; ""; ""; "O"]).
Proof.
  split.
  - split; [reflexivity|]. split; [reflexivity|]. split; [by left|].
    vm_compute; reflexivity.
  - refine (play_balanced (fun _ => 0) [5%Z] YourTurn board_even _ YourTurn
              eq_refl eq_refl _ _).
    + by left.
    + vm_compute; reflexivity.
Defined.

(** ** The only threat is blocked *)

Lemma set_cell_comm g i j x y :
  i <> j -> set_cell (set_cell g i x) j y = set_cell (set_cell g j y) i x.
Proof.
  intros Hij. unfold set_cell. simpl. f_equal.
  by apply list_insert_insert_ne.
Qed.

Lemma line_won_by_transfer g g' combo mark :
  line_won_by g combo mark ->
  cell g' (fst (fst combo)) = cell g (fst (fst combo)) ->
  cell g' (snd (fst combo)) = cell g (snd (fst combo)) ->
  cell g' (snd combo) = cell g (snd combo) ->
  line_won_by g' combo mark.
Proof. unfold line_won_by. intros (H0 & H1 & H2 & Hne) -> -> ->. done. Qed.

Lemma no_winner_no_line g combo mark :
  check_winner g = None -> In combo winning_combinations ->
  ~ line_won_by g combo mark.
Proof.
  unfold check_winner. rewrite scan_combos_None. intros Hn Hin. by apply Hn.
Qed.

(** On a board without a won line, a new mark can only make a line of its
    own. *)
Lemma check_winner_new_mark g m v w :
  wf g -> check_winner g = None -> m < 9 ->
  check_winner (set_cell g m v) = Some w -> w = v.
Proof.
  intros Hwf Hnone Hm (combo & Hin & Hwon)%check_winner_line.
  assert (Hlen : m < length (board g)) by (rewrite Hwf; lia).
  destruct (decide (m = fst (fst combo))) as [->|H0].
  { destruct Hwon as (H & _). by rewrite cell_set_cell_eq in H. }
  destruct (decide (m = snd (fst combo))) as [->|H1].
  { destruct Hwon as (_ & H & _). by rewrite cell_set_cell_eq in H. }
  destruct (decide (m = snd combo)) as [->|H2].
  { destruct Hwon as (_ & _ & H & _). by rewrite cell_set_cell_eq in H. }
  destruct (no_winner_no_line g combo w Hnone Hin).
  apply (line_won_by_transfer (set_cell g m v)); [done|..];
    by rewrite cell_set_cell_ne.
Qed.

(** A line of [mark] that does not go through [p] is there without the
    mark on [p]. *)
Lemma line_without g p v combo mark :
  line_won_by (set_cell g p v) combo mark -> mark <> v ->
  p < length (board g) ->
  line_won_by g combo mark.
Proof.
  intros Hwon Hne Hlen.
  assert (Hp : forall i, cell (set_cell g p v) i = mark -> p <> i).
  { intros i Hi ->. rewrite cell_set_cell_eq in Hi by done. congruence. }
  pose proof Hwon as (H0 & H1 & H2 & _).
  apply (line_won_by_transfer (set_cell g p v)); [done|..];
    symmetry; apply cell_set_cell_ne; auto.
Qed.

Lemma minimax_value_leaf fuel depth is_maximizing g sc :
  0 < fuel -> leaf_score depth g = Some sc ->
  minimax_value fuel depth is_maximizing g = sc.
Proof. intros Hf Hl. destruct fuel; [lia|]. simpl. by rewrite Hl. Qed.

Lemma leaf_score_X depth g :
  check_winner g = Some "X" -> leaf_score depth g = Some (Int (depth - 10)).
Proof. intros H. unfold leaf_score. by rewrite H. Qed.

Lemma leaf_score_no_winner depth g :
  check_winner g = None ->
  leaf_score depth g = if is_board_full g then Some (Int 0) else None.
Proof. intros H. unfold leaf_score. by rewrite H. Qed.

Lemma fold_py_min_lo (val : nat -> score) moves lo hi : forall best,
  (forall m, In m moves -> exists z, val m = Int z /\ (lo <= z <= hi)%Z) ->
  best = PosInf \/ (exists y, best = Int y /\ (lo <= y <= hi)%Z) ->
  best = Int lo \/ (exists m, In m moves /\ val m = Int lo) ->
  fold_left (fun b m => py_min (val m) b) moves best = Int lo.
Proof.
  induction moves as [|a moves IH]; intros best Hval Hbest Hlo; simpl.
  - destruct Hlo as [?|(m & [] & _)]. done.
  - destruct (Hval a) as (x & Hx & Hr); [by left|]. rewrite Hx.
    assert (Hval' : forall m, In m moves ->
              exists z, val m = Int z /\ (lo <= z <= hi)%Z).
    { intros m Hm. apply Hval. by right. }
    destruct (py_min_range x best lo hi Hr Hbest) as (z & Hz & Hzr).
    assert (Hnew : py_min (Int x) best = Int lo
                   \/ exists m, In m moves /\ val m = Int lo).
    { destruct Hlo as [->|(m & [<-|Hm] & Hm')].
      - left. unfold py_min, score_lt. simpl.
        destruct (Z.ltb_spec lo x); [done|]. f_equal. lia.
      - left. rewrite Hx in Hm'. injection Hm' as ->.
        destruct Hbest as [->|(y & -> & Hy)]; unfold py_min, score_lt; simpl;
          [done|]. destruct (Z.ltb_spec y lo); [lia|done].
      - right. eauto. }
    apply IH; [done| |done]. right. rewrite Hz. eauto.
Qed.

Section Block.

Variables (g : TicTacToe) (fuel : nat) (b : nat).
Hypothesis Hwf : wf g.
Hypothesis Hfuel : count_empty g < fuel.
Hypothesis Hnone : check_winner g = None.
Hypothesis Hnowin :
  forall m, In m (get_available_moves g) ->
            check_winner (set_cell g m "O") <> Some "O".
Hypothesis Hb : In b (get_available_moves g).
Hypothesis Hthreat : check_winner (set_cell g b "X") = Some "X".
Hypothesis Honly :
  forall c, In c (get_available_moves g) ->
            check_winner (set_cell g c "X") = Some "X" -> c = b.

Lemma after_O_no_winner m :
  In m (get_available_moves g) -> check_winner (set_cell g m "O") = None.
Proof.
  intros Hm. destruct (check_winner (set_cell g m "O")) as [w|] eqn:Hc; [|done].
  pose proof Hm as [Hlt _]%In_available.
  pose proof (check_winner_new_mark g m "O" w Hwf Hnone Hlt Hc) as ->.
  by destruct (Hnowin m Hm).
Qed.

(** Any other move lets X complete its line at once. *)
Lemma other_value m :
  In m (get_available_moves g) -> m <> b ->
  minimax_value fuel 0 false (set_cell g m "O") = Int (-9).
Proof.
  intros Hm Hmb.
  pose proof Hm as [Hmlt Hme]%In_available.
  pose proof Hb as [Hblt Hbe]%In_available.
  set (gm := set_cell g m "O").
  assert (Hwfm : wf gm) by (by apply wf_set_cell).
  assert (Hcw : check_winner gm = None) by (by apply after_O_no_winner).
  assert (Hbm : In b (get_available_moves gm)).
  { apply In_available. split; [done|]. unfold gm. by rewrite cell_set_cell_ne. }
  assert (Hfull : is_board_full gm = false).
  { destruct (is_board_full gm) eqn:Hf; [|done].
    apply is_board_full_true in Hf; [|done]. by rewrite Hf in Hbm. }
  assert (Hleaf : leaf_score 0 gm = None).
  { by rewrite leaf_score_no_winner, Hfull. }
  pose proof (count_empty_set_cell_exact g m "O" Hwf Hm ltac:(done)) as Hc1.
  fold gm in Hc1.
  pose proof (count_empty_le_9 g) as H9.
  destruct fuel as [|f1]; [lia|]. simpl. rewrite Hleaf.
  apply fold_py_min_lo
    with (hi := 9%Z)
         (val := fun c => minimax_value f1 (0 + 1) true (set_cell gm c "X")).
  - intros c Hc.
    pose proof (count_empty_set_cell_exact gm c "X" Hwfm Hc ltac:(done)).
    destruct (minimax_value_range f1 (0 + 1)%Z true (set_cell gm c "X"))
      as (z & Hz & Hr); [by apply wf_set_cell|lia..|].
    exists z. split; [done|lia].
  - by left.
  - right. exists b. split; [done|].
    assert (Hx : check_winner (set_cell gm b "X") = Some "X").
    { destruct (check_winner (set_cell gm b "X")) as [w|] eqn:Hc.
      - f_equal. by apply (check_winner_new_mark gm b "X" w).
      - exfalso. unfold gm in Hc. rewrite set_cell_comm in Hc by done.
        revert Hc. apply check_winner_persist; [by rewrite Hthreat|].
        by rewrite cell_set_cell_ne. }
    pose proof (count_empty_set_cell_exact gm b "X" Hwfm Hbm ltac:(done)).
    apply minimax_value_leaf; [lia|]. by rewrite (leaf_score_X _ _ Hx).
Qed.

(** The blocking move does not. *)
Lemma block_value :
  exists z,
    minimax_value fuel 0 false (set_cell g b "O") = Int z /\ (-8 <= z)%Z.
Proof.
  pose proof Hb as [Hblt Hbe]%In_available.
  set (gb := set_cell g b "O").
  assert (Hwfb : wf gb) by (by apply wf_set_cell).
  assert (Hcw : check_winner gb = None) by (by apply after_O_no_winner).
  pose proof (count_empty_set_cell_exact g b "O" Hwf Hb ltac:(done)) as Hc1.
  fold gb in Hc1.
  pose proof (count_empty_le_9 g) as H9.
  pose proof (leaf_score_no_winner 0 gb Hcw) as Hleaf.
  destruct (is_board_full gb) eqn:Hfull.
  - exists 0%Z. split; [|lia]. apply minimax_value_leaf; [lia|done].
  - destruct fuel as [|f1]; [lia|].
    destruct (minimax_value_step_range f1 0 false gb (-8) 9 Hwfb Hleaf)
      as (z & Hz & Hr); [|exists z; split; [done|lia]].
    intros c Hc. simpl negb.
    pose proof Hc as [Hclt Hce]%In_available.
    assert (Hcb : c <> b).
    { intros ->. unfold gb in Hce.
      rewrite cell_set_cell_eq in Hce by (rewrite Hwf; lia). done. }
    assert (Hcg : In c (get_available_moves g)).
    { apply In_available. split; [done|].
      unfold gb in Hce. by rewrite cell_set_cell_ne in Hce. }
    pose proof (count_empty_set_cell_exact gb c "X" Hwfb Hc ltac:(done)).
    destruct (minimax_value_extreme f1 (0 + 1)%Z true (set_cell gb c "X"))
      as (z & Hz & Hr & _ & HX); [by apply wf_set_cell|lia..|].
    exists z. split; [done|].
    assert (Hnx : check_winner (set_cell gb c "X") <> Some "X").
    { intros (combo & Hin & Hwon)%check_winner_line.
      unfold gb in Hwon. rewrite set_cell_comm in Hwon by done.
      apply line_without in Hwon;
        [|done|simpl; rewrite length_insert, Hwf; lia].
      assert (Hcw' : check_winner (set_cell g c "X") = Some "X").
      { destruct (check_winner (set_cell g c "X")) as [w|] eqn:Hw.
        - f_equal. by apply (check_winner_new_mark g c "X" w).
        - by destruct (no_winner_no_line _ combo "X" Hw Hin). }
      by apply Hcb, Honly. }
    assert (z <> (0 + 1 - 10)%Z) by (intros Hzz; by apply Hnx, HX).
    lia.
Qed.

Lemma get_best_move_block_move :
  get_best_move fuel g = Some (Move b, g).
Proof.
  assert (Hne : get_available_moves g <> []) by (intros E; by rewrite E in Hb).
  destruct (get_best_move_choice fuel g Hwf Hfuel Hne)
    as (l1 & m & l2 & Hs & Hr & H1 & H2).
  destruct (decide (m = b)) as [->|Hmb]; [done|].
  exfalso.
  assert (Hm : In m (get_available_moves g)).
  { rewrite Hs. apply in_or_app. right. by left. }
  pose proof (other_value m Hm Hmb) as Hvm.
  destruct block_value as (z & Hz & Hz8).
  pose proof Hb as Hb2. rewrite Hs in Hb2.
  apply in_app_or in Hb2 as [Hb2|[Hb2|Hb2]].
  - specialize (H1 b Hb2). rewrite Hvm, Hz in H1. simpl in H1.
    apply Z.ltb_lt in H1. lia.
  - done.
  - specialize (H2 b Hb2). rewrite Hvm, Hz in H2. simpl in H2.
    apply Z.ltb_ge in H2. lia.
Qed.

End Block.

(** On a board without a won line where O has no cell that wins at once
    and X has exactly one, [get_best_move] returns that cell: the
    automated player blocks the only threat. *)
Theorem get_best_move_blocks (g : TicTacToe) (fuel : nat) (threat : nat) :
  wf g -> count_empty g < fuel -> check_winner g = None ->
  (forall m, In m (get_available_moves g) ->
             check_winner (set_cell g m "O") <> Some "O") ->
  In threat (get_available_moves g) ->
  check_winner (set_cell g threat "X") = Some "X" ->
  (forall c, In c (get_available_moves g) ->
             check_winner (set_cell g c "X") = Some "X" -> c = threat) ->
  get_best_move fuel g = Some (Move threat, g).
Proof. intros. by apply get_best_move_block_move. Qed.

Lemma get_best_move_blocks_witness :
  (wf board_threat /\ count_empty board_threat < search_fuel
   /\ check_winner board_threat = None
   /\ (forall m, In m (get_available_moves board_threat) ->
                check_winner (set_cell board_threat m "O") <> Some "O")
   /\ In 2 (get_available_moves board_threat)
   /\ check_winner (set_cell board_threat 2 "X") = Some "X"
   /\ (forall c, In c (get_available_moves board_threat) ->
                check_winner (set_cell board_threat c "X") = Some "X" -> c = 2))
  /\ get_best_move search_fuel board_threat = Some (Move 2, board_threat).
Proof.
  assert (Hfuel : count_empty board_threat < search_fuel) by (vm_compute; lia).
  assert (Hnowin : forall m, In m (get_available_moves board_threat) ->
            check_winner (set_cell board_threat m "O") <> Some "O").
  { intros m Hm. vm_compute in Hm.
    repeat (destruct Hm as [<-|Hm]; [vm_compute; discriminate|]). destruct Hm. }
  assert (Hin : In 2 (get_available_moves board_threat)) by (vm_compute; tauto).
  assert (Honly : forall c, In c (get_available_moves board_threat) ->
            check_winner (set_cell board_threat c "X") = Some "X" -> c = 2).
  { intros c Hc Hx. vm_compute in Hc.
    repeat (destruct Hc as [<-|Hc];
            [first [reflexivity|vm_compute in Hx; discriminate]|]).
    destruct Hc. }
  split.
  - split; [reflexivity|]. split; [exact Hfuel|]. split; [reflexivity|].
    split; [exact Hnowin|]. split; [exact Hin|]. split; [reflexivity|exact Honly].
  - exact (get_best_move_blocks board_threat search_fuel 2 eq_refl Hfuel
             eq_refl Hnowin Hin eq_refl Honly).
Defined.
